(** * QGhostBusters: the quantum ghost of [src/Units/ghosts.py]

    A shallow embedding of the classes [Ghost] and [QGhost]: the visible
    parts of a ghost in superposition, their interaction with the splitter
    tiles and the attack on the player.

    Conventions of the embedding.
    - A Python float is read as the rational number it denotes, and float
      arithmetic as exact arithmetic on rationals ([Q]).
    - A [pygame.Vector2] is a pair of such numbers.
    - The global random source of [numpy] is an explicit argument: an
      infinite tape of draws with a cursor.
    - Mutation of [self] is explicit state passing on a record.
    - What the file imports from the rest of the repository and does not
      define ([beam_splitter], the coincidence test, the attack radius
      test, the settings, [Unit.update]) and the state type of [qutip] are
      parameters of the section [Engine]. *)

From Stdlib Require Import QArith Qabs ZArith List Lia Lqa.
From stdpp Require Import base gmap list strings.

Local Open Scope nat_scope.

(** ** pygame.Vector2 *)

Record Vector2 := mkVector2 { vx : Q; vy : Q }.

(** [k * Vector2(..)] *)
Definition vscale (k : Q) (v : Vector2) : Vector2 :=
  mkVector2 (k * vx v)%Q (k * vy v)%Q.

(** Truth value of a vector, as [if last_move] tests it: a vector is false
    exactly when all its coordinates are zero (pygame allows for rounding
    there; the moves of this file have integer coordinates). *)
Definition Vector2_bool (v : Vector2) : bool :=
  negb (Qeq_bool (vx v) 0) || negb (Qeq_bool (vy v) 0).

(** Coordinate-wise equality of the numbers denoted. *)
Definition veq (u v : Vector2) : Prop :=
  (vx u == vx v)%Q ∧ (vy u == vy v)%Q.

(** [np.allclose(a, b, rtol)] on two vectors, with numpy's default
    [atol = 1e-8]: every coordinate satisfies
    [|a - b| <= atol + rtol * |b|]. *)
Definition atol_default : Q := (1 # 100000000)%Q.

Definition isclose (a b rtol : Q) : bool :=
  Qle_bool (Qabs (a - b)) (atol_default + rtol * Qabs b)%Q.

Definition allclose (a b : Vector2) (rtol : Q) : bool :=
  isclose (vx a) (vx b) rtol && isclose (vy a) (vy b) rtol.

(** ** The random source *)

(** [floats n] is what the [n]-th call returns when it is
    [np.random.random()], [picks n] the index it selects when it is
    [np.random.choice]. *)
Record RNG := mkRNG { floats : nat → Q; picks : nat → nat; cursor : nat }.

Definition advance (r : RNG) : RNG :=
  mkRNG (floats r) (picks r) (S (cursor r)).

Definition random (r : RNG) : Q * RNG := (floats r (cursor r), advance r).

Definition choice {A} (d : A) (l : list A) (r : RNG) : A * RNG :=
  (nth (picks r (cursor r) mod length l) l d, advance r).

(** ** Ghost *)

Definition DIR_DICT : list (string * (Z * Z)) :=
  [ ("L"%string, (-1, 0)%Z); ("R"%string, (1, 0)%Z);
    ("D"%string, (0, -1)%Z); ("U"%string, (0, 1)%Z) ].

Definition Vector2_of_ints (p : Z * Z) : Vector2 :=
  mkVector2 (inject_Z (fst p)) (inject_Z (snd p)).

(** The fields of a [Ghost] that the quantum bookkeeping reads or writes.
    Sprite, sound channel and the back reference to the owning [QGhost]
    carry no state of their own here. *)
Record Ghost := mkGhost { position : Vector2; last_move : Vector2 }.

(** [Ghost.__init__]: [last_move if last_move else Vector2(-1, 0)].
    The argument is [None] (the default) or a vector. *)
Definition default_last_move : Vector2 := mkVector2 (-1) 0.

Definition init_last_move (arg : option Vector2) : Vector2 :=
  match arg with
  | Some v => if Vector2_bool v then v else default_last_move
  | None => default_last_move
  end.

Definition Ghost_init (pos : Vector2) (arg : option Vector2) : Ghost :=
  mkGhost pos (init_last_move arg).

(** [x < y] on floats, as a boolean. *)
Definition Qlt_bool (x y : Q) : bool := negb (Qle_bool y x).

(** [Ghost.calculate_move_vector]: with probability [GHOST_SPEED] the
    zero vector, otherwise the vector of a key drawn from [DIR_DICT].
    The key is drawn from the dictionary's own keys, so the lookup cannot
    miss; the last branch is never taken. *)
Definition calculate_move_vector (GHOST_SPEED : Q) (r : RNG) : Vector2 * RNG :=
  let '(u, r1) := random r in
  if Qlt_bool u GHOST_SPEED then (mkVector2 0 0, r1)
  else
    let '(key, r2) := choice ("L"%string) (map fst DIR_DICT) r1 in
    match list_find (λ kv, String.eqb (fst kv) key) DIR_DICT with
    | Some (_, (_, xy)) => (Vector2_of_ints xy, r2)
    | None => (mkVector2 0 0, r2)
    end.

(** ** qutip: kets of a product of [dim]-level systems *)

Module Qutip.

(** A complex amplitude: real and imaginary part. *)
Definition C : Type := Q * Q.
Definition c0 : C := (0, 0)%Q.
Definition c1 : C := (1, 0)%Q.
Definition cmul (a b : C) : C :=
  (fst a * fst b - snd a * snd b, fst a * snd b + snd a * fst b)%Q.

(** A ket: the dimension of each factor and the column of amplitudes. *)
Record Qobj := mkQobj { dims : list nat; data : list C }.

(** [basis(N, n)]: the [n]-th number state of an [N]-level system;
    qutip raises [ValueError] unless [n < N]. *)
Definition basis (N n : nat) : option Qobj :=
  if n <? N
  then Some (mkQobj [N] (map (λ k, if k =? n then c1 else c0) (seq 0 N)))
  else None.

(** [tensor(a, b)]: Kronecker product of the columns. *)
Definition tensor (a b : Qobj) : Qobj :=
  mkQobj (dims a ++ dims b)
         (flat_map (λ x, map (cmul x) (data b)) (data a)).

(** [ket(seq, dim)]: the product of [basis(dim, n)] for [n] in [seq];
    an empty [seq] is refused. *)
Fixpoint ket (ns : list nat) (dim : nat) : option Qobj :=
  match ns with
  | [] => None
  | [n] => basis dim n
  | n :: rest =>
      match basis dim n, ket rest dim with
      | Some a, Some b => Some (tensor a b)
      | _, _ => None
      end
  end.

(** The amplitude stored at index [k] of the column. *)
Definition amplitude (q : Qobj) (k : nat) : C := nth k (data q) c0.

(** The square of [q.norm()]: the sum of the squared moduli. *)
Definition cnorm_sq (a : C) : Q := (fst a * fst a + snd a * snd a)%Q.

Definition norm_sq (q : Qobj) : Q :=
  fold_right Qplus 0%Q (map cnorm_sq (data q)).

(** A column cut into [count] consecutive blocks of [size] entries. *)
Fixpoint chunks {A} (count size : nat) (l : list A) : list (list A) :=
  match count with
  | 0 => []
  | S c => take size l :: chunks c size (drop size l)
  end.

(** The column of [tensor([ket([0], M).dag() if g == i else qeye(M) ...])
    * q] for a ket with factors [ds]: the entries of [q] in which factor
    [i] is at its level 0, in order.  The first factor of a product is
    the most significant digit of the index. *)
Fixpoint contract_absent (i : nat) (ds : list nat) (v : list C) : list C :=
  match ds with
  | [] => v
  | d :: ds' =>
      let block := fold_right Nat.mul 1 ds' in
      match i with
      | 0 => take block v
      | S i' => concat (map (contract_absent i' ds') (chunks d block v))
      end
  end.

(** The product the attack forms for part [i] of [n] parts, each factor
    of [M] levels; qutip refuses it unless the state has exactly these
    factors. *)
Definition not_here (M n i : nat) (q : Qobj) : option Qobj :=
  if decide (dims q = replicate n M ∧ i < n)
  then Some (mkQobj (<[i:=1]> (dims q))
                    (contract_absent i (dims q) (data q)))
  else None.

End Qutip.

(** ** Splitter, player and quantum ghost *)

Record GhostSplitter :=
  mkSplitter { s_position : Vector2; splitterType : string }.

Record Player := mkPlayer { p_position : Vector2; health : Z }.

(** A [QGhost]: its own [Ghost] fields, the quantum state, the visible
    parts, the splitters of the level, the render group it was given (the
    sprites added to it, in order) and the number of attack sounds its
    sound manager has played. *)
Record QGhost {QState : Type} := mkQGhost {
  self_ghost : Ghost;
  quantum_state : QState;
  visible_parts : list Ghost;
  splitters : list GhostSplitter;
  render_group : list Ghost;
  attack_sounds : nat
}.
Arguments QGhost : clear implicits.
Arguments mkQGhost {QState}.

(** The sum of a list of numbers. *)
Definition Qsum (l : list Q) : Q := fold_right Qplus 0%Q l.

Definition nonempty {A} (l : list A) : bool :=
  match l with [] => false | _ :: _ => true end.

(** [enumerate(l)] *)
Definition enumerate {A} (l : list A) : list (nat * A) := imap pair l.

(** ** Instances of the parameters, for running the engine *)

(** The free model of the quantum state: the initial ket and the calls of
    [beam_splitter] applied to it, uninterpreted. *)
Inductive QTerm :=
| TKet (ns : list nat) (dim : nat)
| TBeam (q : QTerm) (i : nat) (j : option nat).

Definition Vector2_eqb (u v : Vector2) : bool :=
  Qeq_bool (vx u) (vx v) && Qeq_bool (vy u) (vy v).

Definition dir_up : Vector2 := mkVector2 0 1.
Definition dir_down : Vector2 := mkVector2 0 (-1).
Definition dir_right : Vector2 := mkVector2 1 0.

(** Modelled from the spec: the coincidence test
    [two_ghost_coming_from_different_sides_of_splitter] of
    [src/Units/utils.py], which is not among the sources.  Section 4.2:
    a pure, symmetric function of the two last moves and the splitter
    type; for a diagonal splitter "up" and "right" are complementary, for
    an axis-aligned one "up" and "down". *)
Definition complementary (a b : Vector2) (ty : string) : bool :=
  let pair_of u v :=
    (Vector2_eqb a u && Vector2_eqb b v)
    || (Vector2_eqb a v && Vector2_eqb b u) in
  if String.eqb ty "45" then pair_of dir_up dir_right
  else pair_of dir_up dir_down.

Definition spec_coincidence (g1 g2 : Ghost) (ty : string) : bool :=
  complementary (last_move g1) (last_move g2) ty.

(** Modelled from the spec: [is_in_attack_radius] of
    [src/Units/utils.py], which is not among the sources.  Section 4.3:
    a visible part counts when it is within the attack radius of the
    player; the distance is compared through its square. *)
Definition spec_in_attack_radius (p q : Vector2) (radius : Q) : bool :=
  Qle_bool ((vx p - vx q) * (vx p - vx q) + (vy p - vy q) * (vy p - vy q))
           (radius * radius).

Definition origin : Vector2 := mkVector2 0 0.

(** A tape whose every float is [u] and whose every pick is [k]. *)
Definition constant_tape (u : Q) (k : nat) : RNG := mkRNG (λ _, u) (λ _, k) 0.

(** A one-mode state is the number state of level [k]: its column has
    amplitude 1 at index [k] and 0 at every other index. *)
Definition number_state (q : Qutip.Qobj) (k : nat) : Prop :=
  ∀ i, Qutip.amplitude q i = if i =? k then Qutip.c1 else Qutip.c0.

(** The claim that a state of [n] slots is the pure state occupying slot
    [i].  A slot is a mode, one per visible part, and the attack takes
    part [k] to be absent where mode [k] is at its level 0: the state is
    normalised, its part with slot [i] empty vanishes, and its part with
    any other slot empty is all of it. *)
Definition occupies_slot (M n : nat) (q : Qutip.Qobj) (i : nat) : Prop :=
  Qutip.dims q = replicate n M
  ∧ i < n
  ∧ (Qutip.norm_sq q == 1)%Q
  ∧ ∀ k, k < n →
      ∃ p, Qutip.not_here M n k q = Some p
           ∧ (Qutip.norm_sq p == if k =? i then 0 else 1)%Q.

(** Every [Ghost] comes out of [Ghost.__init__], which never leaves a
    zero [last_move]. *)
Definition constructed (g : Ghost) : Prop := Vector2_bool (last_move g) = true.

(** A diagonal splitter on the tile [(0, 0)], parts standing on it that
    move up, right and (the default) left, and a part far from it. *)
Definition sp45 : GhostSplitter := mkSplitter origin "45".
Definition part_up : Ghost := Ghost_init origin (Some dir_up).
Definition part_right : Ghost := Ghost_init origin (Some dir_right).
Definition part_left : Ghost := Ghost_init origin None.
Definition part_away : Ghost := Ghost_init (mkVector2 5 5) None.

(** A ghost with the given parts over the free model of the state, built
    for the capacity [M], on a level with the one splitter. *)
Definition ghost_with (M : nat) (parts : list Ghost) : QGhost QTerm :=
  mkQGhost (Ghost_init origin None) (TKet [1] M) parts [sp45] parts 0.

(** A norm that is always 0: every part is certainly where it is seen. *)
Definition certain_presence : QTerm → nat → nat → Q := λ _ _ _, 0%Q.

Definition player_at_origin : Player := mkPlayer origin 3.

(** The scalar product of two vectors. *)
Definition dot (u v : Vector2) : Q := (vx u * vx v + vy u * vy v)%Q.

(** A ghost moves along an axis when its [last_move] is numerically one
    of the four vectors of [DIR_DICT]. *)
Definition cardinal (g : Ghost) : Prop :=
  ∃ xy, xy ∈ map snd DIR_DICT ∧ veq (last_move g) (Vector2_of_ints xy).

(** In the free model: the ket a state was built from, and the number of
    [beam_splitter] calls without a second mode applied to it. *)
Fixpoint term_base (q : QTerm) : QTerm :=
  match q with
  | TKet ns dim => TKet ns dim
  | TBeam q _ _ => term_base q
  end.

Fixpoint splits (q : QTerm) : nat :=
  match q with
  | TKet _ _ => 0
  | TBeam q _ None => S (splits q)
  | TBeam q _ (Some _) => splits q
  end.

Section Engine.

(** The type of a qutip state and the functions and settings the file
    imports. *)
Context {QState : Type}.
Variable ket : list nat → nat → option QState.
Variable beam_splitter : QState → nat → option nat → QState.
Variable two_ghost_coming_from_different_sides_of_splitter :
  Ghost → Ghost → string → bool.
Variable is_in_attack_radius : Vector2 → Vector2 → Q → bool.
(** [(tensor([ket([0], M).dag() if g == i else qeye(M)
              for g in range(n)]) * state).norm()] *)
Variable not_here_norm : QState → nat → nat → Q.
Variable Unit_update : Vector2 → Vector2 → Vector2.
Variable MAX_GHOSTS_PER_STATE : nat.
Variables GHOST_ATTACK_RADIUS PROB_GHOST_ATTACK GHOST_SPEED : Q.

Abbreviation QG := (QGhost QState).

Definition set_quantum_state (g : QG) (q : QState) : QG :=
  mkQGhost (self_ghost g) q (visible_parts g) (splitters g)
           (render_group g) (attack_sounds g).

(** *** Ghost.update *)

(** The vector handed to [Unit.update]: the result of
    [calculate_move_vector] is overwritten by [self.last_move]. *)
Definition Ghost_update_move (g : Ghost) (r : RNG) : Vector2 * RNG :=
  let '(moveVector, r1) := calculate_move_vector GHOST_SPEED r in
  let moveVector := last_move g in
  (moveVector, r1).

Definition Ghost_update (g : Ghost) (r : RNG) : Ghost * RNG :=
  let '(moveVector, r1) := Ghost_update_move g r in
  (mkGhost (Unit_update (position g) moveVector) moveVector, r1).

(** *** QGhost.add_visible_ghost *)
Definition add_visible_ghost (g : QG) (start_position : Vector2)
    (arg_last_move : option Vector2) : QG :=
  let ghost := Ghost_init start_position arg_last_move in
  mkQGhost (self_ghost g) (quantum_state g) (visible_parts g ++ [ghost])
           (splitters g) (render_group g ++ [ghost]) (attack_sounds g).

(** *** QGhost.__init__; [None] when [ket] raises. *)
Definition QGhost_init (pos : Vector2) (spl : list GhostSplitter)
    (rg : list Ghost) : option QG :=
  match ket [1] MAX_GHOSTS_PER_STATE with
  | Some q =>
      Some (add_visible_ghost
              (mkQGhost (Ghost_init pos None) q [] spl rg 0) pos None)
  | None => None
  end.

(** *** QGhost.interact_with_splitter *)

(** The outgoing direction of a split: [(-1) ** (type == "45") *
    Vector2(last_move.y, last_move.x)]. *)
Definition reflected_move (ty : string) (lm : Vector2) : Vector2 :=
  vscale (if String.eqb ty "45" then -1 else 1)%Q
         (mkVector2 (vy lm) (vx lm)).

(** One turn of the loop over [enumerate(self.visible_parts[i:])]; the
    accumulator is the quantum state, [seen] and [is_coincidence]. *)
Definition scan_step (i : nat) (this_ghost : Ghost) (ty : string)
    (acc : QState * gset nat * bool) (jo : nat * Ghost)
    : QState * gset nat * bool :=
  let '(q, seen, is_coincidence) := acc in
  let '(j, other_ghost) := jo in
  if two_ghost_coming_from_different_sides_of_splitter
       this_ghost other_ghost ty
  then (beam_splitter q i (Some j), seen ∪ {[ i; i + j ]}, true)
  else acc.

(** [enumerate(self.visible_parts[i:])] *)
Definition candidates (i : nat) (g : QG) : list (nat * Ghost) :=
  enumerate (drop i (visible_parts g)).

Definition scan (i : nat) (this_ghost : Ghost) (ty : string)
    (g : QG) (seen : gset nat) : QState * gset nat * bool :=
  fold_left (scan_step i this_ghost ty) (candidates i g)
            (quantum_state g, seen, false).

(** The offsets, in [self.visible_parts[i:]], of the candidates that
    pass the coincidence test, and the indices they cause to be marked. *)
Definition coinciding (i : nat) (this_ghost : Ghost) (ty : string)
    (g : QG) : list nat :=
  map fst
      (List.filter
         (λ jo, two_ghost_coming_from_different_sides_of_splitter
                  this_ghost jo.2 ty)
         (candidates i g)).

Definition marks (i : nat) (offsets : list nat) : gset nat :=
  list_to_set (offsets ≫= λ j, [i; i + j]).

(** The body of the loop over [enumerate(self.visible_parts[:])]. *)
Definition process_part (splitter : GhostSplitter)
    (st : QG * gset nat) (ig : nat * Ghost) : QG * gset nat :=
  let '(g, seen) := st in
  let '(i, this_ghost) := ig in
  if decide (i ∈ seen) then st
  else if allclose (s_position splitter) (position this_ghost) (1 # 100)
  then
    let '(q, seen1, is_coincidence) :=
      scan i this_ghost (splitterType splitter) g seen in
    let g1 := set_quantum_state g q in
    if is_coincidence then (g1, seen1)
    else
      let lm := reflected_move (splitterType splitter) (last_move this_ghost) in
      let g2 := add_visible_ghost g1 (position this_ghost) (Some lm) in
      (set_quantum_state g2 (beam_splitter (quantum_state g2) i None),
       seen1)
  else st.

(** The body of the loop over [self.splitters]: the parts are
    enumerated from a copy taken when the inner loop starts. *)
Definition process_splitter (st : QG * gset nat)
    (splitter : GhostSplitter) : QG * gset nat :=
  fold_left (process_part splitter)
            (enumerate (visible_parts (fst st))) st.

Definition interact_with_splitter_seen (g : QG) : QG * gset nat :=
  fold_left process_splitter (splitters g) (g, ∅).

Definition interact_with_splitter (g : QG) : QG :=
  fst (interact_with_splitter_seen g).

(** *** QGhost.attack *)

Definition attack_step (g : QG) (player : Player) (attack_prob : Q)
    (ig : nat * Ghost) : Q :=
  let '(i, ghost) := ig in
  if is_in_attack_radius (p_position player) (position ghost)
                         GHOST_ATTACK_RADIUS
  then
    let p_not_here :=
      not_here_norm (quantum_state g) i (length (visible_parts g)) in
    (attack_prob + (1 - p_not_here))%Q
  else attack_prob.

Definition attack_prob (g : QG) (player : Player) : Q :=
  fold_left (attack_step g player) (enumerate (visible_parts g)) 0%Q.

Definition play_attack_sound (g : QG) : QG :=
  mkQGhost (self_ghost g) (quantum_state g) (visible_parts g)
           (splitters g) (render_group g) (S (attack_sounds g)).

Definition hit (player : Player) : Player :=
  mkPlayer (p_position player) (health player - 1).

Definition attack (g : QG) (player : Player) (r : RNG)
    : QG * Player * RNG :=
  let '(u, r1) := random r in
  if Qle_bool u PROB_GHOST_ATTACK then
    let p := attack_prob g player in
    let '(v, r2) := random r1 in
    if Qle_bool v p then (play_attack_sound g, hit player, r2)
    else (g, player, r2)
  else (g, player, r1).

(** The resolver's figures, written as a sum over a filtered list: the
    presence of part [i], the parts in range, and the aggregate. *)
Definition presence (g : QG) (i : nat) : Q :=
  (1 - not_here_norm (quantum_state g) i (length (visible_parts g)))%Q.

Definition in_range (player : Player) (ig : nat * Ghost) : bool :=
  is_in_attack_radius (p_position player) (position ig.2)
                      GHOST_ATTACK_RADIUS.

Definition aggregate (g : QG) (player : Player) : Q :=
  Qsum (map (λ ig, presence g ig.1)
            (List.filter (in_range player) (enumerate (visible_parts g)))).

(** *** QGhost.update *)
Definition update (g : QG) (player : Player) (r : RNG)
    : QG * Player * RNG :=
  if MAX_GHOSTS_PER_STATE <? length (visible_parts g)
  then (g, player, r)
  else attack (interact_with_splitter g) player r.

(** A run of turns of the scan, each at its splitter and for its part:
    a pass is one (see [pass_is_a_run_of_turns]). *)
Definition run_turns (st : QG * gset nat)
    (turns : list (GhostSplitter * (nat * Ghost))) : QG * gset nat :=
  fold_left (λ st t, process_part t.1 st t.2) turns st.

(** *** Construction leaves no zero [last_move] *)

Lemma Ghost_init_constructed pos arg : constructed (Ghost_init pos arg).
Proof.
  unfold constructed, Ghost_init, init_last_move; simpl.
  destruct arg as [v|]; [|reflexivity].
  destruct (Vector2_bool v) eqn:E; [exact E | reflexivity].
Qed.

(** *** Properties of the attack *)

Lemma attack_prob_acc (g : QG) (player : Player)
    (l : list (nat * Ghost)) (acc : Q) :
  (fold_left (attack_step g player) l acc
   == acc + Qsum (map (λ ig, presence g ig.1)
                      (List.filter (in_range player) l)))%Q.
Proof.
  revert acc. induction l as [|[i ghost] l IH]; intros acc; simpl.
  - ring.
  - rewrite IH. unfold attack_step, in_range at 2. simpl.
    destruct (is_in_attack_radius _ _ _); simpl.
    + unfold presence. ring.
    + reflexivity.
Qed.

Lemma attack_prob_aggregate (g : QG) (player : Player) :
  (attack_prob g player == aggregate g player)%Q.
Proof.
  unfold attack_prob, aggregate. rewrite attack_prob_acc. ring.
Qed.

Lemma Qle_bool_proper_r (v a b : Q) :
  (a == b)%Q → Qle_bool v a = Qle_bool v b.
Proof.
  intros E. apply eq_true_iff_eq. rewrite !Qle_bool_iff, E. reflexivity.
Qed.

(** *** Properties of the scan for coincidences *)

Lemma scan_fold (i : nat) (this : Ghost) (ty : string)
    (cands : list (nat * Ghost)) (q : QState) (seen : gset nat) (c : bool) :
  let offsets :=
    map fst
        (List.filter
           (λ jo, two_ghost_coming_from_different_sides_of_splitter
                    this jo.2 ty) cands) in
  fold_left (scan_step i this ty) cands (q, seen, c)
  = (fold_left (λ q j, beam_splitter q i (Some j)) offsets q,
     seen ∪ marks i offsets,
     c || nonempty offsets).
Proof.
  revert q seen c. induction cands as [|[j other] cands IH];
    intros q seen c; simpl.
  - unfold marks. simpl. rewrite orb_false_r, union_empty_r_L.
    reflexivity.
  - destruct (two_ghost_coming_from_different_sides_of_splitter
                this other ty) eqn:E; simpl.
    + rewrite IH. simpl. rewrite orb_true_r. f_equal. f_equal.
      unfold marks. simpl. rewrite <- !(assoc_L (∪)). reflexivity.
    + apply IH.
Qed.

Lemma scan_eq (i : nat) (this : Ghost) (ty : string) (g : QG)
    (seen : gset nat) :
  scan i this ty g seen
  = (fold_left (λ q j, beam_splitter q i (Some j))
               (coinciding i this ty g) (quantum_state g),
     seen ∪ marks i (coinciding i this ty g),
     nonempty (coinciding i this ty g)).
Proof. unfold scan. rewrite scan_fold. reflexivity. Qed.

Lemma elem_of_candidates (i j : nat) (other : Ghost) (g : QG) :
  (j, other) ∈ candidates i g ↔ visible_parts g !! (i + j) = Some other.
Proof.
  unfold candidates, enumerate. rewrite elem_of_lookup_imap.
  rewrite <- lookup_drop. split.
  - intros (k & y & E & H). injection E as -> ->. exact H.
  - intros H. exists j, other. split; [reflexivity | exact H].
Qed.

Lemma elem_of_coinciding (i j : nat) (this : Ghost) (ty : string) (g : QG) :
  j ∈ coinciding i this ty g
  ↔ ∃ other, visible_parts g !! (i + j) = Some other
             ∧ two_ghost_coming_from_different_sides_of_splitter
                 this other ty = true.
Proof.
  unfold coinciding. rewrite list_elem_of_fmap. split.
  - intros ([j' other] & -> & H). simpl.
    apply list_elem_of_In, filter_In in H as [H E].
    apply list_elem_of_In, elem_of_candidates in H. eauto.
  - intros (other & H & E). exists (j, other). split; [reflexivity|].
    apply list_elem_of_In, filter_In. split; [|exact E].
    apply list_elem_of_In, elem_of_candidates. exact H.
Qed.

Lemma coinciding_nil (i : nat) (this : Ghost) (ty : string) (g : QG) :
  coinciding i this ty g = []
  ↔ ∀ j other, visible_parts g !! (i + j) = Some other →
               two_ghost_coming_from_different_sides_of_splitter
                 this other ty = false.
Proof.
  split.
  - intros E j other Hl.
    destruct (two_ghost_coming_from_different_sides_of_splitter
                this other ty) eqn:Ht; [|reflexivity].
    assert (Hj : j ∈ coinciding i this ty g)
      by (apply elem_of_coinciding; eauto).
    rewrite E in Hj. inversion Hj.
  - intros H. destruct (coinciding i this ty g) as [|j l] eqn:E;
      [reflexivity|].
    assert (Hj : j ∈ coinciding i this ty g) by (rewrite E; left).
    apply elem_of_coinciding in Hj as (other & Hl & Ht).
    rewrite (H j other Hl) in Ht. discriminate Ht.
Qed.

Lemma elem_of_marks (i k : nat) (offsets : list nat) :
  k ∈ marks i offsets
  ↔ (offsets ≠ [] ∧ k = i) ∨ ∃ j, j ∈ offsets ∧ k = i + j.
Proof.
  unfold marks. rewrite elem_of_list_to_set, list_elem_of_bind. split.
  - intros (j & Hk & Hj).
    apply list_elem_of_In in Hk. simpl in Hk.
    destruct Hk as [<-|[<-|[]]].
    + left. split; [|reflexivity]. intros ->. inversion Hj.
    + right. eauto.
  - intros [[Hne ->]|(j & Hj & ->)].
    + destruct offsets as [|j offsets]; [congruence|].
      exists j. split; left.
    + exists j. split; [right; left | exact Hj].
Qed.

Lemma nonempty_flag {A} (l : list A) : nonempty l = true ↔ l ≠ [].
Proof. destruct l; simpl; split; congruence. Qed.

(** *** The three outcomes of one turn of the scan *)

Lemma process_part_skip (sp : GhostSplitter) (g : QG) (seen : gset nat)
    (i : nat) (this : Ghost) :
  i ∈ seen ∨ allclose (s_position sp) (position this) (1 # 100) = false →
  process_part sp (g, seen) (i, this) = (g, seen).
Proof.
  intros H. unfold process_part.
  destruct (decide (i ∈ seen)) as [Hi|Hi]; [reflexivity|].
  destruct H as [H|H]; [contradiction|]. rewrite H. reflexivity.
Qed.

Lemma process_part_merge (sp : GhostSplitter) (g : QG) (seen : gset nat)
    (i : nat) (this : Ghost) :
  i ∉ seen →
  allclose (s_position sp) (position this) (1 # 100) = true →
  coinciding i this (splitterType sp) g ≠ [] →
  process_part sp (g, seen) (i, this)
  = (set_quantum_state g
       (fold_left (λ q j, beam_splitter q i (Some j))
                  (coinciding i this (splitterType sp) g)
                  (quantum_state g)),
     seen ∪ marks i (coinciding i this (splitterType sp) g)).
Proof.
  intros Hi Hc Hne. unfold process_part.
  destruct (decide (i ∈ seen)); [contradiction|].
  rewrite Hc, scan_eq.
  apply nonempty_flag in Hne. rewrite Hne. reflexivity.
Qed.

Lemma process_part_split (sp : GhostSplitter) (g : QG) (seen : gset nat)
    (i : nat) (this : Ghost) :
  i ∉ seen →
  allclose (s_position sp) (position this) (1 # 100) = true →
  coinciding i this (splitterType sp) g = [] →
  process_part sp (g, seen) (i, this)
  = (set_quantum_state
       (add_visible_ghost g (position this)
          (Some (reflected_move (splitterType sp) (last_move this))))
       (beam_splitter (quantum_state g) i None),
     seen).
Proof.
  intros Hi Hc He. unfold process_part.
  destruct (decide (i ∈ seen)); [contradiction|].
  rewrite Hc, scan_eq, He. simpl.
  unfold marks. simpl. rewrite union_empty_r_L. reflexivity.
Qed.

(** The cases are exhaustive: a turn skips, merges or splits. *)
Lemma process_part_cases (sp : GhostSplitter) (g : QG) (seen : gset nat)
    (i : nat) (this : Ghost) :
  (i ∈ seen ∨ allclose (s_position sp) (position this) (1 # 100) = false)
  ∨ ((i ∉ seen)
     ∧ allclose (s_position sp) (position this) (1 # 100) = true
     ∧ coinciding i this (splitterType sp) g ≠ [])
  ∨ ((i ∉ seen)
     ∧ allclose (s_position sp) (position this) (1 # 100) = true
     ∧ coinciding i this (splitterType sp) g = []).
Proof.
  destruct (decide (i ∈ seen)); [left; left; assumption|].
  destruct (allclose _ _ _) eqn:E; [|left; right; reflexivity].
  destruct (coinciding i this (splitterType sp) g) eqn:E'.
  - right; right. auto.
  - right; left. repeat split; auto.
Qed.

(** *** What a pass leaves alone, and how much it can add *)

(** The fields a pass never writes. *)
Definition same_frame (g g' : QG) : Prop :=
  self_ghost g' = self_ghost g
  ∧ splitters g' = splitters g
  ∧ attack_sounds g' = attack_sounds g.

(** The parts only grow, at the end, and the render group with them. *)
Definition grows_by (n : nat) (g g' : QG) : Prop :=
  ∃ new : list Ghost,
    visible_parts g' = visible_parts g ++ new
    ∧ render_group g' = render_group g ++ new
    ∧ length new ≤ n
    ∧ Forall constructed new.

Lemma grows_by_trans (n m : nat) (g1 g2 g3 : QG) :
  grows_by n g1 g2 → grows_by m g2 g3 → grows_by (n + m) g1 g3.
Proof.
  intros (l1 & E1 & R1 & L1 & C1) (l2 & E2 & R2 & L2 & C2).
  exists (l1 ++ l2). rewrite E2, E1, R2, R1, <- !app_assoc, length_app.
  repeat split; [lia | apply Forall_app; split; assumption].
Qed.

Lemma process_part_frame sp g seen ig :
  same_frame g (process_part sp (g, seen) ig).1.
Proof.
  destruct ig as [i this].
  destruct (process_part_cases sp g seen i this) as [H|[(H1&H2&H3)|(H1&H2&H3)]].
  - rewrite process_part_skip by exact H. repeat split.
  - rewrite process_part_merge by assumption. repeat split.
  - rewrite process_part_split by assumption. repeat split.
Qed.

Lemma process_part_grows sp g seen ig :
  grows_by 1 g (process_part sp (g, seen) ig).1.
Proof.
  destruct ig as [i this].
  destruct (process_part_cases sp g seen i this) as [H|[(H1&H2&H3)|(H1&H2&H3)]].
  - rewrite process_part_skip by exact H.
    exists nil. simpl. rewrite !app_nil_r. repeat split; [lia | constructor].
  - rewrite process_part_merge by assumption.
    exists nil. simpl. rewrite !app_nil_r. repeat split; [lia | constructor].
  - rewrite process_part_split by assumption.
    eexists (cons _ nil). simpl. repeat split; [lia|].
    constructor; [apply Ghost_init_constructed | constructor].
Qed.

Lemma process_parts_invariant sp (l : list (nat * Ghost)) g seen :
  same_frame g (fold_left (process_part sp) l (g, seen)).1
  ∧ grows_by (length l) g (fold_left (process_part sp) l (g, seen)).1.
Proof.
  revert g seen. induction l as [|ig l IH]; intros g seen;
    cbn [fold_left length].
  - split; [repeat split|].
    exists nil. rewrite !app_nil_r. repeat split; [simpl; lia | constructor].
  - pose proof (process_part_frame sp g seen ig) as (F1 & F2 & F3).
    pose proof (process_part_grows sp g seen ig) as G.
    destruct (process_part sp (g, seen) ig) as [g1 seen1].
    cbn [fst] in F1, F2, F3, G.
    destruct (IH g1 seen1) as [(I1 & I2 & I3) IG].
    split; [repeat split; etransitivity; eassumption|].
    exact (grows_by_trans 1 (length l) g g1 _ G IG).
Qed.

Lemma process_splitter_invariant (st : QG * gset nat) sp :
  same_frame st.1 (process_splitter st sp).1
  ∧ grows_by (length (visible_parts st.1)) st.1 (process_splitter st sp).1.
Proof.
  destruct st as [g seen]. unfold process_splitter. simpl.
  pose proof (process_parts_invariant sp (enumerate (visible_parts g)) g seen)
    as [F G].
  unfold enumerate in G at 1. rewrite length_imap in G. split; assumption.
Qed.

Lemma process_splitters_invariant (l : list GhostSplitter)
    (st : QG * gset nat) :
  let st' := fold_left process_splitter l st in
  same_frame st.1 st'.1
  ∧ (∃ new, visible_parts st'.1 = visible_parts st.1 ++ new
            ∧ render_group st'.1 = render_group st.1 ++ new
            ∧ Forall constructed new)
  ∧ length (visible_parts st'.1)
    ≤ length (visible_parts st.1) * 2 ^ length l.
Proof.
  revert st. induction l as [|sp l IH]; intros st;
    cbn [fold_left length Nat.pow].
  - split; [repeat split|]. split; [|lia].
    exists nil. rewrite !app_nil_r. repeat split. constructor.
  - pose proof (process_splitter_invariant st sp)
      as [(F1 & F2 & F3) (n1 & E1 & R1 & L1 & C1)].
    destruct (IH (process_splitter st sp))
      as [(I1 & I2 & I3) [(n2 & E2 & R2 & C2) B]].
    split; [repeat split; etransitivity; eassumption|]. split.
    + exists (n1 ++ n2). rewrite E2, E1, R2, R1, <- !app_assoc.
      repeat split. apply Forall_app; split; assumption.
    + rewrite E1, length_app in B.
      etransitivity; [exact B|].
      transitivity ((length (visible_parts st.1)
                     + length (visible_parts st.1)) * 2 ^ length l);
        [apply Nat.mul_le_mono_r; lia | lia].
Qed.

Lemma interact_with_splitter_invariant (g : QG) :
  same_frame g (interact_with_splitter g)
  ∧ (∃ new, visible_parts (interact_with_splitter g) = visible_parts g ++ new
            ∧ render_group (interact_with_splitter g)
              = render_group g ++ new
            ∧ Forall constructed new)
  ∧ length (visible_parts (interact_with_splitter g))
    ≤ length (visible_parts g) * 2 ^ length (splitters g).
Proof.
  exact (process_splitters_invariant (splitters g) (g, ∅)).
Qed.

(** *** The reflected direction *)

Lemma Qeq_bool_scale_unit (b : bool) (x : Q) :
  Qeq_bool ((if b then -1 else 1) * x) 0 = Qeq_bool x 0.
Proof.
  apply eq_true_iff_eq. rewrite !Qeq_bool_iff. split; intros H.
  - destruct b.
    + apply Qmult_integral in H as [H|H]; [discriminate H | exact H].
    + rewrite Qmult_1_l in H. exact H.
  - rewrite H. ring.
Qed.

Lemma reflected_move_constructed (ty : string) (lm : Vector2) :
  Vector2_bool (reflected_move ty lm) = Vector2_bool lm.
Proof.
  unfold Vector2_bool, reflected_move, vscale. simpl.
  rewrite !Qeq_bool_scale_unit. apply orb_comm.
Qed.

Lemma reflected_move_veq (ty : string) (lm : Vector2) :
  veq (reflected_move ty lm)
      (if String.eqb ty "45" then mkVector2 (- vy lm) (- vx lm)
       else mkVector2 (vy lm) (vx lm)).
Proof.
  unfold veq, reflected_move, vscale.
  destruct (String.eqb ty "45"); simpl; split; ring.
Qed.

(** *** The attack leaves the ghost's quantum bookkeeping alone *)

Lemma attack_cases (g : QG) (player : Player) (r : RNG) :
  let checked := Qle_bool (floats r (cursor r)) PROB_GHOST_ATTACK in
  let fired :=
    checked && Qle_bool (floats r (S (cursor r))) (aggregate g player) in
  attack g player r
  = (if fired then play_attack_sound g else g,
     if fired then hit player else player,
     if checked then advance (advance r) else advance r).
Proof.
  unfold attack, random. simpl.
  rewrite (Qle_bool_proper_r _ _ _ (attack_prob_aggregate g player)).
  destruct (Qle_bool (floats r (cursor r)) PROB_GHOST_ATTACK); simpl;
    [|reflexivity].
  destruct (Qle_bool _ (aggregate g player)); reflexivity.
Qed.

(** *** The quantum state changes through [beam_splitter] only *)

Lemma fold_left_preserves {A B} (P : A → Prop) (f : A → B → A)
    (l : list B) (a : A) :
  (∀ a b, P a → P (f a b)) → P a → P (fold_left f l a).
Proof.
  intros Hf. revert a. induction l as [|b l IH]; intros a Ha; simpl;
    [exact Ha | apply IH, Hf, Ha].
Qed.

Lemma process_part_state (P : QState → Prop) sp st ig :
  (∀ q i j, P q → P (beam_splitter q i j)) →
  P (quantum_state st.1) → P (quantum_state (process_part sp st ig).1).
Proof.
  intros Hb. destruct st as [g seen], ig as [i this]. cbn [fst]. intros Hg.
  destruct (process_part_cases sp g seen i this)
    as [H|[(H1&H2&H3)|(H1&H2&H3)]].
  - rewrite process_part_skip by exact H. exact Hg.
  - rewrite process_part_merge by assumption. simpl.
    apply fold_left_preserves; [intros; apply Hb; assumption | exact Hg].
  - rewrite process_part_split by assumption. simpl. apply Hb, Hg.
Qed.

(** X7.  Whatever [beam_splitter] preserves, a whole frame preserves:
    the scan never writes the state but through [beam_splitter], and the
    attack only reads it. *)
Lemma update_state_invariant (P : QState → Prop) (g : QG)
    (player : Player) (r : RNG) :
  (∀ q i j, P q → P (beam_splitter q i j)) →
  P (quantum_state g) → P (quantum_state (update g player r).1.1).
Proof.
  intros Hb Hg. unfold update. destruct (_ <? _); [exact Hg|].
  rewrite attack_cases.
  assert (Hi : P (quantum_state (interact_with_splitter g))).
  { unfold interact_with_splitter, interact_with_splitter_seen.
    apply (fold_left_preserves (λ st, P (quantum_state st.1)));
      [|exact Hg].
    intros st sp Hst. unfold process_splitter.
    apply (fold_left_preserves (λ st, P (quantum_state st.1)));
      [|exact Hst].
    intros st' ig. apply process_part_state, Hb. }
  destruct (_ && _); exact Hi.
Qed.

(** Every part a frame leaves behind came out of [Ghost.__init__]. *)
Lemma update_parts_constructed (g : QG) (player : Player) (r : RNG) :
  Forall constructed (visible_parts g) →
  Forall constructed (visible_parts (update g player r).1.1).
Proof.
  intros H. unfold update. destruct (_ <? _); [exact H|].
  rewrite attack_cases.
  destruct (interact_with_splitter_invariant g)
    as (_ & (new & E & _ & C) & _).
  assert (Forall constructed (visible_parts (interact_with_splitter g)))
    by (rewrite E; apply Forall_app; split; assumption).
  destruct (_ && _); assumption.
Qed.

Lemma QGhost_init_parts_constructed pos spl rg (g : QG) :
  QGhost_init pos spl rg = Some g → Forall constructed (visible_parts g).
Proof.
  unfold QGhost_init. destruct (ket [1] MAX_GHOSTS_PER_STATE); [|discriminate].
  intros [= <-]. simpl. repeat constructor.
Qed.

(** *** The claims about the engine *)

(** C3.  [attack] draws once for the attack check and compares the draw
    with [PROB_GHOST_ATTACK]; when the check passes it adds up
    [1 - p_not_here] over exactly the visible parts in the attack radius,
    compares one further draw with that sum as it is (no clamping), and
    on success takes 1 from the player's health and plays the attack
    sound once.  Nothing else changes.  A frame below the capacity guard
    is the pass over the splitters followed by exactly this attack, on
    the parts and the state the pass leaves; a frame above it resolves no
    attack.  So one call of [update] costs the player at most 1 health
    and plays at most one sound. *)
Theorem attack_resolution (g : QG) (player : Player) (r : RNG) :
  let checked := Qle_bool (floats r (cursor r)) PROB_GHOST_ATTACK in
  let fired :=
    checked && Qle_bool (floats r (S (cursor r))) (aggregate g player) in
  let res := attack g player r in
  (attack_prob g player == aggregate g player)%Q
  ∧ health res.1.2 = (health player - (if fired then 1 else 0))%Z
  ∧ attack_sounds res.1.1 = attack_sounds g + (if fired then 1 else 0)
  ∧ p_position res.1.2 = p_position player
  ∧ quantum_state res.1.1 = quantum_state g
  ∧ visible_parts res.1.1 = visible_parts g
  ∧ cursor res.2 = cursor r + (if checked then 2 else 1)
  ∧ (let res' := update g player r in
     (health player - 1 ≤ health res'.1.2 ≤ health player)%Z
     ∧ attack_sounds res'.1.1 ≤ S (attack_sounds g))
  ∧ update g player r
    = (if MAX_GHOSTS_PER_STATE <? length (visible_parts g)
       then (g, player, r)
       else attack (interact_with_splitter g) player r)
  ∧ (let res' := update g player r in
     let resolved :=
       negb (MAX_GHOSTS_PER_STATE <? length (visible_parts g)) in
     let fired' :=
       resolved && checked
       && Qle_bool (floats r (S (cursor r)))
                   (aggregate (interact_with_splitter g) player) in
     health res'.1.2 = (health player - (if fired' then 1 else 0))%Z
     ∧ attack_sounds res'.1.1
       = attack_sounds g + (if fired' then 1 else 0)
     ∧ quantum_state res'.1.1
       = (if resolved then quantum_state (interact_with_splitter g)
          else quantum_state g)
     ∧ visible_parts res'.1.1
       = (if resolved then visible_parts (interact_with_splitter g)
          else visible_parts g)
     ∧ cursor res'.2
       = cursor r
         + (if resolved then (if checked then 2 else 1) else 0)).
Proof.
  split; [apply attack_prob_aggregate|].
  cbv zeta. rewrite attack_cases.
  split; [destruct (_ && _); simpl; lia|].
  split; [destruct (_ && _); simpl; lia|].
  split; [destruct (_ && _); reflexivity|].
  split; [destruct (_ && _); reflexivity|].
  split; [destruct (_ && _); reflexivity|].
  split; [destruct (Qle_bool _ PROB_GHOST_ATTACK); simpl; lia|].
  destruct (interact_with_splitter_invariant g) as [(_ & _ & E) _].
  split; [|split; [reflexivity|]].
  - unfold update. destruct (_ <? _); [simpl; lia|].
    rewrite attack_cases. destruct (_ && _); simpl; lia.
  - unfold update. destruct (_ <? _); simpl.
    + repeat split; lia.
    + rewrite attack_cases.
      destruct (Qle_bool _ PROB_GHOST_ATTACK); simpl;
        [destruct (Qle_bool _ (aggregate _ _)); simpl|];
        repeat split; lia.
Qed.

Lemma update_over_capacity (g : QG) (player : Player) (r : RNG) :
  MAX_GHOSTS_PER_STATE < length (visible_parts g) →
  update g player r = (g, player, r).
Proof.
  intros H. unfold update.
  destruct (Nat.ltb_spec MAX_GHOSTS_PER_STATE (length (visible_parts g)));
    [reflexivity | lia].
Qed.

(** C5.  When a ghost has more visible parts than
    [MAX_GHOSTS_PER_STATE] at the start of [update], the call returns at
    once: the ghost (quantum state, parts, render group, sounds played),
    the player and the random tape come back as they were, so no
    splitter was visited and no attack resolved. *)
Theorem update_capacity_guard (g : QG) (player : Player) (r : RNG) :
  MAX_GHOSTS_PER_STATE < length (visible_parts g) →
  update g player r = (g, player, r)
  ∧ quantum_state (update g player r).1.1 = quantum_state g
  ∧ visible_parts (update g player r).1.1 = visible_parts g
  ∧ render_group (update g player r).1.1 = render_group g
  ∧ attack_sounds (update g player r).1.1 = attack_sounds g
  ∧ health (update g player r).1.2 = health player
  ∧ cursor (update g player r).2 = cursor r.
Proof.
  intros H. rewrite update_over_capacity by exact H.
  repeat split.
Qed.

(** C6, amended.  The only capacity test is the guard of [update]: with
    more than [MAX_GHOSTS_PER_STATE] parts the parts are left as they
    are.  Otherwise nothing bounds the parts by the setting: a frame
    appends parts to the ones it found, never removes one, and each
    splitter of the level can at most double their number. *)
Theorem update_growth_bound (g : QG) (player : Player) (r : RNG) :
  let g' := (update g player r).1.1 in
  (MAX_GHOSTS_PER_STATE < length (visible_parts g) →
   visible_parts g' = visible_parts g)
  ∧ (∃ new, visible_parts g' = visible_parts g ++ new)
  ∧ length (visible_parts g')
    ≤ length (visible_parts g) * 2 ^ length (splitters g).
Proof.
  cbv zeta. split; [|split].
  - intros H. rewrite update_over_capacity by exact H. reflexivity.
  - unfold update. destruct (_ <? _).
    + exists nil. simpl. rewrite app_nil_r. reflexivity.
    + rewrite attack_cases.
      destruct (interact_with_splitter_invariant g)
        as (_ & (new & E & _) & _).
      exists new. destruct (_ && _); exact E.
  - unfold update. destruct (_ <? _).
    + simpl. pose proof (Nat.pow_nonzero 2 (length (splitters g))). nia.
    + rewrite attack_cases.
      destruct (interact_with_splitter_invariant g) as (_ & _ & B).
      destruct (_ && _); exact B.
Qed.

(** C2, amended.  When part [i] is scanned at a splitter tile and the
    candidate at offset [j] of [visible_parts[i:]] passes the coincidence
    test, the turn leaves [visible_parts] and the render group exactly as
    they were (neither of the two parts is removed and no part is
    spawned), rewrites the quantum state by one two-mode call of
    [beam_splitter] with first mode [i] for each candidate that passes
    the test, and marks [i] and [i + j] seen without unmarking anything.
    A whole pass never removes a part either. *)
Theorem merge_keeps_both_parts (sp : GhostSplitter) (g : QG)
    (seen : gset nat) (i j : nat) (this other : Ghost) :
  i ∉ seen →
  allclose (s_position sp) (position this) (1 # 100) = true →
  visible_parts g !! (i + j) = Some other →
  two_ghost_coming_from_different_sides_of_splitter
    this other (splitterType sp) = true →
  let st' := process_part sp (g, seen) (i, this) in
  let passing :=
    List.filter
      (λ jo, two_ghost_coming_from_different_sides_of_splitter
               this jo.2 (splitterType sp))
      (candidates i g) in
  visible_parts st'.1 = visible_parts g
  ∧ render_group st'.1 = render_group g
  ∧ (∃ second_modes : list nat,
       second_modes ≠ []
       ∧ length second_modes = length passing
       ∧ quantum_state st'.1
         = fold_left (λ q k, beam_splitter q i (Some k)) second_modes
                     (quantum_state g))
  ∧ i ∈ st'.2 ∧ i + j ∈ st'.2 ∧ seen ⊆ st'.2
  ∧ ∃ new, visible_parts (interact_with_splitter g)
           = visible_parts g ++ new.
Proof.
  intros Hi Hc Hl He. cbv zeta.
  assert (Hj : j ∈ coinciding i this (splitterType sp) g)
    by (apply elem_of_coinciding; eauto).
  assert (Hne : coinciding i this (splitterType sp) g ≠ [])
    by (intros E; rewrite E in Hj; inversion Hj).
  rewrite process_part_merge by assumption. simpl.
  split; [reflexivity|]. split; [reflexivity|]. split.
  { exists (coinciding i this (splitterType sp) g).
    split; [exact Hne|]. split; [|reflexivity].
    unfold coinciding. apply length_map. }
  split; [|split; [|split]].
  - apply elem_of_union_r, elem_of_marks. left. auto.
  - apply elem_of_union_r, elem_of_marks. right. eauto.
  - apply union_subseteq_l.
  - destruct (interact_with_splitter_invariant g) as (_ & (new & E & _) & _).
    eauto.
Qed.

(** C4.  When part [i] is scanned at a splitter tile and no candidate
    passes the coincidence test, the turn appends exactly one part to
    [visible_parts] (and to the render group): it stands where part [i]
    stands and its [last_move] is part [i]'s with the coordinates
    swapped, and negated when the splitter type is ["45"]; the quantum
    state becomes [beam_splitter(state, i)] and [seen] is unchanged.  In
    particular a ghost whose one part moves up, [(0, 1)], on a ["45"]
    splitter has two parts after the pass, the new one moving
    [(-1, 0)]. *)
Theorem split_spawns_reflected_part (sp : GhostSplitter) (g : QG)
    (seen : gset nat) (i : nat) (this : Ghost) :
  constructed this →
  i ∉ seen →
  allclose (s_position sp) (position this) (1 # 100) = true →
  coinciding i this (splitterType sp) g = [] →
  (∃ new : Ghost,
     process_part sp (g, seen) (i, this)
     = (mkQGhost (self_ghost g) (beam_splitter (quantum_state g) i None)
                 (visible_parts g ++ [new]) (splitters g)
                 (render_group g ++ [new]) (attack_sounds g),
        seen)
     ∧ position new = position this
     ∧ veq (last_move new)
           (if String.eqb (splitterType sp) "45"
            then mkVector2 (- vy (last_move this)) (- vx (last_move this))
            else mkVector2 (vy (last_move this)) (vx (last_move this))))
  ∧ (visible_parts g = [this] → splitters g = [sp] → i = 0 →
     splitterType sp = "45"%string → last_move this = mkVector2 0 1 →
     visible_parts (interact_with_splitter g)
     = [this; mkGhost (position this) (mkVector2 (-1) 0)]
     ∧ quantum_state (interact_with_splitter g)
       = beam_splitter (quantum_state g) 0 None).
Proof.
  intros Hw Hi Hc He. split.
  - rewrite process_part_split by assumption.
    exists (Ghost_init (position this)
              (Some (reflected_move (splitterType sp) (last_move this)))).
    split; [reflexivity|]. split; [reflexivity|].
    unfold Ghost_init, init_last_move. simpl.
    rewrite reflected_move_constructed, Hw. apply reflected_move_veq.
  - intros Hp Hs -> Hty Hlm.
    unfold interact_with_splitter, interact_with_splitter_seen.
    rewrite Hs. cbn [fold_left]. unfold process_splitter.
    cbn [fst]. rewrite Hp. cbn [enumerate imap fold_left].
    rewrite process_part_split
      by (assumption || apply not_elem_of_empty).
    rewrite Hty, Hlm. simpl. rewrite Hp. split; reflexivity.
Qed.

(** C7, amended.  The candidates of part [i] are all the parts at index
    [i] and above of the current [visible_parts], part [i] first: the
    scan finds a coincidence exactly when one of them passes the test,
    and marks [i] and each such index, whether or not the index was
    already marked and wherever the candidate stands. *)
Theorem candidates_are_all_later_parts (i : nat) (this : Ghost)
    (ty : string) (g : QG) (seen : gset nat) :
  let passes k :=
    ∃ other, i ≤ k ∧ visible_parts g !! k = Some other
             ∧ two_ghost_coming_from_different_sides_of_splitter
                 this other ty = true in
  (∀ j other,
     (j, other) ∈ candidates i g ↔ visible_parts g !! (i + j) = Some other)
  ∧ ((scan i this ty g seen).2 = true ↔ ∃ k, passes k)
  ∧ (∀ k, k ∈ (scan i this ty g seen).1.2
          ↔ k ∈ seen ∨ ((∃ k', passes k') ∧ k = i) ∨ passes k).
Proof.
  cbv zeta.
  assert (Hex : coinciding i this ty g ≠ []
                ↔ ∃ k other, i ≤ k ∧ visible_parts g !! k = Some other
                    ∧ two_ghost_coming_from_different_sides_of_splitter
                        this other ty = true).
  { split.
    - intros Hne. destruct (coinciding i this ty g) as [|j l] eqn:E;
        [congruence|].
      assert (Hj : j ∈ coinciding i this ty g) by (rewrite E; left).
      apply elem_of_coinciding in Hj as (other & Hl & Ht).
      exists (i + j), other. repeat split; [lia | assumption..].
    - intros (k & other & Hk & Hl & Ht) E.
      assert (Hj : k - i ∈ coinciding i this ty g).
      { apply elem_of_coinciding. exists other.
        replace (i + (k - i)) with k by lia. auto. }
      rewrite E in Hj. inversion Hj. }
  split; [intros j other; apply elem_of_candidates|].
  rewrite scan_eq. simpl. split.
  - rewrite nonempty_flag. exact Hex.
  - intros k. rewrite elem_of_union, elem_of_marks, Hex.
    split; (intros [H|[H|H]]; [left; exact H | right; left; exact H |]).
    + destruct H as (j & Hj & ->).
      apply elem_of_coinciding in Hj as (other & Hl & Ht).
      right; right. exists other. repeat split; [lia | assumption..].
    + destruct H as (other & Hk & Hl & Ht).
      right; right. exists (k - i). split; [|lia].
      apply elem_of_coinciding. exists other.
      replace (i + (k - i)) with k by lia. auto.
Qed.

(** *** Further properties of a pass over the splitters *)

Lemma fold_left_preserves_in {A B} (P : A → Prop) (f : A → B → A)
    (l : list B) (a : A) :
  (∀ a b, b ∈ l → P a → P (f a b)) → P a → P (fold_left f l a).
Proof.
  revert a. induction l as [|b l IH]; intros a Hf Ha; simpl; [exact Ha|].
  apply IH.
  - intros a' b' Hb'. apply Hf. right. exact Hb'.
  - apply Hf; [left | exact Ha].
Qed.

Lemma elem_of_enumerate {A} (l : list A) (i : nat) (x : A) :
  (i, x) ∈ enumerate l ↔ l !! i = Some x.
Proof.
  unfold enumerate. rewrite elem_of_lookup_imap. split.
  - intros (k & y & E & H). injection E as -> ->. exact H.
  - intros H. eauto.
Qed.

(** X4.  When no visible part stands on a splitter tile, the pass over
    the splitters is the identity: no part is added, the quantum state is
    not touched and nothing is marked. *)
Theorem pass_is_identity_off_the_splitters (g : QG) :
  (∀ sp part, sp ∈ splitters g → part ∈ visible_parts g →
     allclose (s_position sp) (position part) (1 # 100) = false) →
  interact_with_splitter_seen g = (g, ∅).
Proof.
  intros H. unfold interact_with_splitter_seen.
  apply (fold_left_preserves_in (λ st, st = (g, ∅))); [|reflexivity].
  intros st sp Hsp ->. unfold process_splitter. cbn [fst].
  apply (fold_left_preserves_in (λ st, st = (g, ∅))); [|reflexivity].
  intros st [i this] Hi ->.
  apply process_part_skip. right.
  apply H; [exact Hsp|].
  apply elem_of_enumerate in Hi. apply list_elem_of_lookup. eauto.
Qed.

Lemma process_part_seen_valid (sp : GhostSplitter) (n : nat) (g : QG)
    (seen : gset nat) (i : nat) (this : Ghost) :
  i < n →
  n ≤ length (visible_parts g) ∧ (∀ k, k ∈ seen → k < length (visible_parts g)) →
  let st' := process_part sp (g, seen) (i, this) in
  n ≤ length (visible_parts st'.1)
  ∧ (∀ k, k ∈ st'.2 → k < length (visible_parts st'.1)).
Proof.
  intros Hi [Hn Hs]. cbv zeta.
  destruct (process_part_cases sp g seen i this)
    as [H|[(H1&H2&H3)|(H1&H2&H3)]].
  - rewrite process_part_skip by exact H. auto.
  - rewrite process_part_merge by assumption. simpl. split; [exact Hn|].
    intros k Hk. apply elem_of_union in Hk as [Hk|Hk]; [auto|].
    apply elem_of_marks in Hk as [[_ ->]|(j & Hj & ->)]; [lia|].
    apply elem_of_coinciding in Hj as (other & Hl & _).
    apply lookup_lt_Some in Hl. exact Hl.
  - rewrite process_part_split by assumption. simpl.
    rewrite length_app. simpl. split; [lia|].
    intros k Hk. specialize (Hs k Hk). lia.
Qed.

(** X6.  Every index a pass marks seen is the index of a visible part:
    [seen] never holds an index past the end of [visible_parts]. *)
Theorem seen_indices_are_valid (g : QG) (k : nat) :
  k ∈ (interact_with_splitter_seen g).2 →
  k < length (visible_parts (interact_with_splitter g)).
Proof.
  unfold interact_with_splitter. revert k.
  unfold interact_with_splitter_seen.
  apply (fold_left_preserves
           (λ st, ∀ k, k ∈ st.2 → k < length (visible_parts st.1))).
  - intros [g1 seen1] sp Hst. unfold process_splitter. cbn [fst].
    apply (fold_left_preserves_in
             (λ st, length (visible_parts g1) ≤ length (visible_parts st.1)
                    ∧ ∀ k, k ∈ st.2 → k < length (visible_parts st.1))).
    + intros [g2 seen2] [i this] Hi HP.
      apply (process_part_seen_valid sp (length (visible_parts g1)));
        [|exact HP].
      apply elem_of_enumerate, lookup_lt_Some in Hi. exact Hi.
    + split; [reflexivity | exact Hst].
  - intros k Hk. simpl in Hk. apply not_elem_of_empty in Hk. contradiction.
Qed.

(** X16.  Every part a pass adds stands on a splitter tile of the level
    (within the tolerance of the scan). *)
Theorem new_parts_stand_on_splitters (g : QG) :
  ∃ new,
    visible_parts (interact_with_splitter g) = visible_parts g ++ new
    ∧ Forall (λ p, ∃ sp, sp ∈ splitters g
                         ∧ allclose (s_position sp) (position p) (1 # 100)
                           = true) new.
Proof.
  unfold interact_with_splitter, interact_with_splitter_seen.
  set (Φ := λ p : Ghost,
         ∃ sp, sp ∈ splitters g
               ∧ allclose (s_position sp) (position p) (1 # 100) = true).
  apply (fold_left_preserves_in
           (λ st, ∃ new, visible_parts st.1 = visible_parts g ++ new
                         ∧ Forall Φ new)).
  - intros st sp Hsp HP. unfold process_splitter.
    apply (fold_left_preserves
             (λ st, ∃ new, visible_parts st.1 = visible_parts g ++ new
                           ∧ Forall Φ new)); [|exact HP].
    intros [g1 seen1] [i this] (new & E & F). cbn [fst] in E.
    destruct (process_part_cases sp g1 seen1 i this)
      as [H|[(H1&H2&H3)|(H1&H2&H3)]].
    + rewrite process_part_skip by exact H. eauto.
    + rewrite process_part_merge by assumption. simpl. eauto.
    + rewrite process_part_split by assumption. simpl.
      exists (new ++ [Ghost_init (position this)
                        (Some (reflected_move (splitterType sp)
                                 (last_move this)))]).
      rewrite E, <- app_assoc. split; [reflexivity|].
      apply Forall_app. split; [exact F|].
      constructor; [|constructor]. exists sp. split; assumption.
  - exists nil. rewrite app_nil_r. split; [reflexivity | constructor].
Qed.

(** X5.  A frame writes neither the ghost's own fields nor the list of
    splitters, and whatever it appends to [visible_parts] it appends, in
    the same order, to the render group: every part that exists is drawn. *)
Theorem update_keeps_render_group_in_step (g : QG) (player : Player)
    (r : RNG) :
  let g' := (update g player r).1.1 in
  self_ghost g' = self_ghost g
  ∧ splitters g' = splitters g
  ∧ ∃ new, visible_parts g' = visible_parts g ++ new
           ∧ render_group g' = render_group g ++ new.
Proof.
  cbv zeta. unfold update. destruct (_ <? _).
  - simpl. repeat split. exists nil. rewrite !app_nil_r. split; reflexivity.
  - rewrite attack_cases.
    destruct (interact_with_splitter_invariant g)
      as ((F1 & F2 & _) & (new & E & R & _) & _).
    destruct (_ && _); simpl; repeat split; try assumption;
      exists new; split; assumption.
Qed.

(** *** Directions *)

Lemma Vector2_bool_veq (u v : Vector2) :
  veq u v → Vector2_bool u = Vector2_bool v.
Proof.
  intros [Hx Hy]. unfold Vector2_bool.
  assert (Ex : Qeq_bool (vx u) 0 = Qeq_bool (vx v) 0)
    by (apply eq_true_iff_eq; rewrite !Qeq_bool_iff, Hx; reflexivity).
  assert (Ey : Qeq_bool (vy u) 0 = Qeq_bool (vy v) 0)
    by (apply eq_true_iff_eq; rewrite !Qeq_bool_iff, Hy; reflexivity).
  rewrite Ex, Ey. reflexivity.
Qed.

Lemma cardinal_constructed (g : Ghost) : cardinal g → constructed g.
Proof.
  intros (xy & Hin & Hv). unfold constructed.
  rewrite (Vector2_bool_veq _ _ Hv).
  simpl in Hin. repeat (apply elem_of_cons in Hin as [->|Hin]);
    [reflexivity.. | inversion Hin].
Qed.

Lemma reflected_move_cardinal (ty : string) (pos : Vector2) (this : Ghost) :
  cardinal this →
  cardinal (Ghost_init pos (Some (reflected_move ty (last_move this)))).
Proof.
  intros Hc. pose proof (cardinal_constructed this Hc) as Hn.
  destruct Hc as ([a b] & Hin & [Hx Hy]). simpl in Hx, Hy.
  unfold cardinal, Ghost_init, init_last_move. cbn [last_move].
  rewrite reflected_move_constructed, Hn.
  exists (if String.eqb ty "45" then (- b, - a)%Z else (b, a)). split.
  - simpl in Hin.
    repeat (apply elem_of_cons in Hin as [[= -> ->]|Hin]);
      [destruct (String.eqb ty "45"); simpl;
       solve [left | right; left | right; right; left
              | right; right; right; left] .. | inversion Hin].
  - pose proof (reflected_move_veq ty (last_move this)) as [Rx Ry].
    split; [rewrite Rx | rewrite Ry];
      destruct (String.eqb ty "45"); simpl;
      rewrite ?Hx, ?Hy, ?inject_Z_opp; reflexivity.
Qed.

Lemma process_part_cardinal sp (g : QG) seen i this :
  cardinal this → Forall cardinal (visible_parts g) →
  Forall cardinal (visible_parts (process_part sp (g, seen) (i, this)).1).
Proof.
  intros Ht Hg.
  destruct (process_part_cases sp g seen i this)
    as [H|[(H1&H2&H3)|(H1&H2&H3)]].
  - rewrite process_part_skip by exact H. exact Hg.
  - rewrite process_part_merge by assumption. exact Hg.
  - rewrite process_part_split by assumption. simpl.
    apply Forall_app. split; [exact Hg|].
    constructor; [apply reflected_move_cardinal, Ht | constructor].
Qed.

(** X3.  Every visible part moves along an axis, always: the part the
    constructor adds moves left, a frame adds only parts whose direction
    is one of the four of [DIR_DICT], and [Ghost.update] leaves the
    direction of a part as it is. *)
Theorem parts_move_along_an_axis (g : QG) (player : Player) (r : RNG) :
  (∀ pos spl rg g0, QGhost_init pos spl rg = Some g0 →
     Forall cardinal (visible_parts g0))
  ∧ (Forall cardinal (visible_parts g) →
     Forall cardinal (visible_parts (update g player r).1.1))
  ∧ (∀ part, cardinal part → cardinal (Ghost_update part r).1).
Proof.
  split; [|split].
  - intros pos spl rg g0. unfold QGhost_init.
    destruct (ket [1] MAX_GHOSTS_PER_STATE); [|discriminate].
    intros [= <-]. simpl. constructor; [|constructor].
    exists (-1, 0)%Z. split; [left | split; reflexivity].
  - intros H. unfold update. destruct (_ <? _); [exact H|].
    rewrite attack_cases.
    assert (Hi : Forall cardinal (visible_parts (interact_with_splitter g))).
    { unfold interact_with_splitter, interact_with_splitter_seen.
      apply (fold_left_preserves
               (λ st, Forall cardinal (visible_parts st.1))); [|exact H].
      intros [g1 seen1] sp Hg1. unfold process_splitter. cbn [fst] in *.
      apply (fold_left_preserves_in
               (λ st, Forall cardinal (visible_parts st.1))); [|exact Hg1].
      intros [g2 seen2] [i this] Hin Hg2.
      apply process_part_cardinal; [|exact Hg2].
      apply elem_of_enumerate in Hin.
      rewrite Forall_forall in Hg1. apply Hg1.
      apply list_elem_of_lookup. eauto. }
    destruct (_ && _); exact Hi.
  - intros part Hc. unfold Ghost_update, Ghost_update_move.
    destruct (calculate_move_vector GHOST_SPEED r). exact Hc.
Qed.

(** X14.  Reflecting a direction twice at the same splitter gives the
    direction back. *)
Theorem reflected_move_involutive (ty : string) (v : Vector2) :
  veq (reflected_move ty (reflected_move ty v)) v.
Proof.
  unfold veq, reflected_move, vscale.
  destruct (String.eqb ty "45"); simpl; split; ring.
Qed.

(** X15.  A part that moves along an axis is split at a right angle: the
    direction of the part a split adds is perpendicular to the direction
    of the part that was split, and of the same length. *)
Theorem reflected_move_perpendicular (ty : string) (v : Vector2) :
  (vx v * vy v == 0)%Q →
  (dot v (reflected_move ty v) == 0)%Q
  ∧ (dot (reflected_move ty v) (reflected_move ty v) == dot v v)%Q.
Proof.
  intros H. unfold dot, reflected_move, vscale.
  destruct (String.eqb ty "45"); simpl; split; try ring.
  - transitivity (-(2) * (vx v * vy v))%Q; [ring | rewrite H; ring].
  - transitivity (2 * (vx v * vy v))%Q; [ring | rewrite H; ring].
Qed.

(** *** The quantum state and the parts *)

(** X8.  A frame adds exactly as many visible parts as it makes calls of
    [beam_splitter] without a second mode: for every counter [m] that
    such a call raises by one and a call with two modes leaves alone, the
    counter and the number of parts grow by the same amount. *)
Theorem parts_added_match_new_modes (m : QState → nat) (g : QG)
    (player : Player) (r : RNG) :
  (∀ q i, m (beam_splitter q i None) = S (m q)) →
  (∀ q i j, m (beam_splitter q i (Some j)) = m q) →
  let g' := (update g player r).1.1 in
  m (quantum_state g') + length (visible_parts g)
  = m (quantum_state g) + length (visible_parts g').
Proof.
  intros Hs Hm. cbv zeta. unfold update. destruct (_ <? _); [simpl; lia|].
  rewrite attack_cases.
  assert (Hi : m (quantum_state (interact_with_splitter g))
               + length (visible_parts g)
               = m (quantum_state g)
                 + length (visible_parts (interact_with_splitter g))).
  { unfold interact_with_splitter, interact_with_splitter_seen.
    apply (fold_left_preserves
             (λ st, m (quantum_state st.1) + length (visible_parts g)
                    = m (quantum_state g) + length (visible_parts st.1)));
      [|reflexivity].
    intros st sp Hst. unfold process_splitter.
    apply (fold_left_preserves
             (λ st, m (quantum_state st.1) + length (visible_parts g)
                    = m (quantum_state g) + length (visible_parts st.1)));
      [|exact Hst].
    intros [g1 seen1] [i this] H1. cbn [fst] in H1.
    destruct (process_part_cases sp g1 seen1 i this)
      as [H|[(A1&A2&A3)|(A1&A2&A3)]].
    - rewrite process_part_skip by exact H. exact H1.
    - rewrite process_part_merge by assumption. simpl.
      rewrite <- H1. f_equal.
      apply (fold_left_preserves (λ q, m q = m (quantum_state g1)));
        [|reflexivity].
      intros q j Hq. rewrite Hm. exact Hq.
    - rewrite process_part_split by assumption. simpl.
      rewrite Hs, length_app. simpl. lia. }
  destruct (_ && _); exact Hi.
Qed.

(** *** Further properties of the attack *)

Lemma aggregate_acc_bounds (g : QG) (player : Player)
    (l : list (nat * Ghost)) :
  (∀ i, 0 <= not_here_norm (quantum_state g) i (length (visible_parts g))
        <= 1)%Q →
  (0 <= Qsum (map (λ ig, presence g ig.1) (List.filter (in_range player) l))
   <= inject_Z (Z.of_nat (length l)))%Q.
Proof.
  intros H. induction l as [|[i p] l IH].
  - simpl. split; apply Qle_refl.
  - cbn [List.filter length].
    rewrite Nat2Z.inj_succ. unfold Z.succ. rewrite inject_Z_plus.
    change (inject_Z 1) with 1%Q.
    destruct (in_range player (i, p)); cbn [map Qsum fold_right].
    + unfold presence at 1 3. specialize (H i). cbn [fst].
      fold (Qsum (map (λ ig, presence g ig.1)
                      (List.filter (in_range player) l))).
      lra.
    + lra.
Qed.

(** X10.  When every norm the attack reads lies between 0 and 1, the
    aggregate attack probability lies between 0 and the number of visible
    parts: it is never negative, and it can exceed 1 only with more than
    one part. *)
Theorem aggregate_bounds (g : QG) (player : Player) :
  (∀ i, 0 <= not_here_norm (quantum_state g) i (length (visible_parts g))
        <= 1)%Q →
  (0 <= aggregate g player
   <= inject_Z (Z.of_nat (length (visible_parts g))))%Q.
Proof.
  intros H. unfold aggregate.
  pose proof (aggregate_acc_bounds g player (enumerate (visible_parts g)) H)
    as B.
  replace (length (enumerate (visible_parts g)))
    with (length (visible_parts g)) in B
    by (unfold enumerate; rewrite length_imap; reflexivity).
  exact B.
Qed.

Lemma aggregate_nobody (player : Player) (l : list (nat * Ghost)) :
  (∀ ig, ig ∈ l → in_range player ig = false) →
  List.filter (in_range player) l = [].
Proof.
  induction l as [|ig l IH]; intros H; simpl; [reflexivity|].
  rewrite (H ig) by left. apply IH. intros ig' Hin. apply H. right. exact Hin.
Qed.

(** X9.  When no visible part is in the attack radius the aggregate is
    0, and the player is still hit when the attack check passes and the
    second draw is not above 0: the draw is compared with [<=]. *)
Theorem attack_with_nobody_in_range (g : QG) (player : Player) (r : RNG) :
  (∀ part, part ∈ visible_parts g →
     is_in_attack_radius (p_position player) (position part)
                         GHOST_ATTACK_RADIUS = false) →
  let fired :=
    Qle_bool (floats r (cursor r)) PROB_GHOST_ATTACK
    && Qle_bool (floats r (S (cursor r))) 0 in
  aggregate g player = 0%Q
  ∧ health (attack g player r).1.2
    = (health player - (if fired then 1 else 0))%Z
  ∧ attack_sounds (attack g player r).1.1
    = attack_sounds g + (if fired then 1 else 0).
Proof.
  intros H. cbv zeta.
  assert (E : aggregate g player = 0%Q).
  { unfold aggregate. rewrite aggregate_nobody; [reflexivity|].
    intros [i p] Hin. unfold in_range. simpl. apply H.
    apply elem_of_enumerate in Hin. apply list_elem_of_lookup. eauto. }
  split; [exact E|]. rewrite attack_cases, E.
  destruct (_ && _); simpl; split; lia.
Qed.

(** *** How the turns of a pass compose *)

Lemma process_part_seen_mono (sp : GhostSplitter) (st : QG * gset nat)
    (ig : nat * Ghost) :
  st.2 ⊆ (process_part sp st ig).2.
Proof.
  destruct st as [g seen], ig as [i this]. cbn [snd].
  destruct (process_part_cases sp g seen i this)
    as [H|[(H1&H2&H3)|(H1&H2&H3)]].
  - rewrite process_part_skip by exact H. reflexivity.
  - rewrite process_part_merge by assumption. apply union_subseteq_l.
  - rewrite process_part_split by assumption. reflexivity.
Qed.

Lemma run_turns_seen_mono (st : QG * gset nat)
    (turns : list (GhostSplitter * (nat * Ghost))) :
  st.2 ⊆ (run_turns st turns).2.
Proof.
  unfold run_turns.
  apply (fold_left_preserves (λ st', st.2 ⊆ st'.2)); [|reflexivity].
  intros st' t H. etransitivity; [exact H|]. apply process_part_seen_mono.
Qed.

Lemma run_turns_app (st : QG * gset nat)
    (t1 t2 : list (GhostSplitter * (nat * Ghost))) :
  run_turns st (t1 ++ t2) = run_turns (run_turns st t1) t2.
Proof. unfold run_turns. apply fold_left_app. Qed.

Lemma process_splitter_run (st : QG * gset nat) (sp : GhostSplitter) :
  process_splitter st sp
  = run_turns st (map (pair sp) (enumerate (visible_parts st.1))).
Proof.
  unfold process_splitter, run_turns.
  generalize (enumerate (visible_parts st.1)). intros l. revert st.
  induction l as [|ig l IH]; intros st; [reflexivity|]. simpl. apply IH.
Qed.

(** The pass over the splitters is a run of turns from the empty [seen]. *)
Lemma pass_is_a_run_of_turns (g : QG) :
  ∃ turns, interact_with_splitter_seen g = run_turns (g, ∅) turns.
Proof.
  unfold interact_with_splitter_seen.
  generalize (g, (∅ : gset nat)). generalize (splitters g).
  intros l. induction l as [|sp l IH]; intros st.
  - exists nil. reflexivity.
  - cbn [fold_left]. destruct (IH (process_splitter st sp)) as [turns E].
    exists (map (pair sp) (enumerate (visible_parts st.1)) ++ turns).
    rewrite run_turns_app, <- process_splitter_run. exact E.
Qed.

(** X17.  Once a turn has found part [i] and the part at index [i + j] in
    coincidence, neither of the two is scanned again in the frame: [seen]
    only grows, so after any further turns both indices are still marked,
    and a turn for either index, at any splitter, changes nothing. *)
Theorem merged_parts_are_skipped (sp sp' : GhostSplitter) (g : QG)
    (seen : gset nat) (i j : nat) (this other that : Ghost)
    (later : list (GhostSplitter * (nat * Ghost))) :
  i ∉ seen →
  allclose (s_position sp) (position this) (1 # 100) = true →
  visible_parts g !! (i + j) = Some other →
  two_ghost_coming_from_different_sides_of_splitter
    this other (splitterType sp) = true →
  let st' := run_turns (process_part sp (g, seen) (i, this)) later in
  i ∈ st'.2 ∧ i + j ∈ st'.2
  ∧ process_part sp' st' (i + j, that) = st'
  ∧ process_part sp' st' (i, that) = st'.
Proof.
  intros Hi Hc Hl He. cbv zeta.
  assert (Hj : j ∈ coinciding i this (splitterType sp) g)
    by (apply elem_of_coinciding; eauto).
  assert (Hne : coinciding i this (splitterType sp) g ≠ [])
    by (intros E; rewrite E in Hj; inversion Hj).
  pose proof (run_turns_seen_mono (process_part sp (g, seen) (i, this)) later)
    as Hm.
  rewrite process_part_merge in * by assumption. cbn [snd] in Hm.
  set (st' := run_turns _ later) in *.
  assert (A : i ∈ st'.2)
    by (apply Hm, elem_of_union_r, elem_of_marks; left; auto).
  assert (B : i + j ∈ st'.2)
    by (apply Hm, elem_of_union_r, elem_of_marks; right; eauto).
  split; [exact A|]. split; [exact B|].
  destruct st' as [g' seen'].
  split; apply process_part_skip; left; assumption.
Qed.

Lemma filter_snd_imap {A} (P : A → bool) (h : nat → nat) (l : list A) :
  map snd (List.filter (λ ip, P ip.2) (imap (λ i x, (h i, x)) l))
  = List.filter P l.
Proof.
  revert h. induction l as [|x l IH]; intros h; [reflexivity|].
  cbn [imap List.filter snd].
  destruct (P x); cbn [map snd]; [f_equal|]; apply (IH (h ∘ S)).
Qed.

Lemma pure_split_turns (sp : GhostSplitter) (l : list (nat * Ghost))
    (g : QG) :
  (∀ a b ty,
     two_ghost_coming_from_different_sides_of_splitter a b ty = false) →
  let on_tile := λ ip : nat * Ghost,
    allclose (s_position sp) (position ip.2) (1 # 100) in
  let spawn := λ ip : nat * Ghost,
    Ghost_init (position ip.2)
      (Some (reflected_move (splitterType sp) (last_move ip.2))) in
  let new := map spawn (List.filter on_tile l) in
  fold_left (process_part sp) l (g, ∅)
  = (mkQGhost (self_ghost g)
       (fold_left (λ q i, beam_splitter q i None)
                  (map fst (List.filter on_tile l)) (quantum_state g))
       (visible_parts g ++ new) (splitters g) (render_group g ++ new)
       (attack_sounds g),
     ∅).
Proof.
  intros Hco. cbv zeta. revert g.
  induction l as [|[i p] l IH]; intros g.
  - simpl. rewrite !app_nil_r. destruct g; reflexivity.
  - cbn [fold_left List.filter snd].
    destruct (allclose (s_position sp) (position p) (1 # 100)) eqn:E.
    + rewrite process_part_split;
        [|apply not_elem_of_empty | exact E
         |apply coinciding_nil; intros; apply Hco].
      rewrite IH. simpl. rewrite <- !app_assoc. reflexivity.
    + rewrite process_part_skip by (right; exact E). apply IH.
Qed.

(** X18.  On a level with one splitter, when the coincidence test fails
    for every pair, a pass splits every part that stands on the tile
    exactly once and in index order: the new parts are the reflections of
    those parts, [beam_splitter(state, i)] is applied for each of their
    indices, the parts elsewhere are untouched and nothing is marked. *)
Theorem pure_split_pass (sp : GhostSplitter) (g : QG) :
  (∀ a b ty,
     two_ghost_coming_from_different_sides_of_splitter a b ty = false) →
  splitters g = [sp] →
  let on_tile := λ p : Ghost,
    allclose (s_position sp) (position p) (1 # 100) in
  let spawn := λ p : Ghost,
    Ghost_init (position p)
      (Some (reflected_move (splitterType sp) (last_move p))) in
  let new := map spawn (List.filter on_tile (visible_parts g)) in
  interact_with_splitter_seen g
  = (mkQGhost (self_ghost g)
       (fold_left (λ q i, beam_splitter q i None)
                  (map fst (List.filter (λ ip, on_tile ip.2)
                                        (enumerate (visible_parts g))))
                  (quantum_state g))
       (visible_parts g ++ new) (splitters g) (render_group g ++ new)
       (attack_sounds g),
     ∅).
Proof.
  intros Hco Hs. cbv zeta. unfold interact_with_splitter_seen.
  rewrite Hs at 1. cbn [fold_left]. unfold process_splitter. cbn [fst].
  rewrite pure_split_turns by exact Hco.
  rewrite <- (filter_snd_imap
                (λ p, allclose (s_position sp) (position p) (1 # 100))
                (λ i, i) (visible_parts g)).
  rewrite !map_map. reflexivity.
Qed.

End Engine.

(** ** Construction *)

Lemma nth_map_seq {A} (f : nat → A) (d : A) (N a k : nat) :
  nth k (map f (seq a N)) d = if k <? N then f (a + k) else d.
Proof.
  revert a k. induction N as [|N IH]; intros a k; simpl.
  - destruct k; reflexivity.
  - destruct k as [|k]; simpl.
    + rewrite Nat.add_0_r. reflexivity.
    + rewrite IH. replace (S a + k) with (a + S k) by lia. reflexivity.
Qed.

Lemma basis_amplitude N n k :
  n < N →
  nth k (map (λ k, if k =? n then Qutip.c1 else Qutip.c0) (seq 0 N)) Qutip.c0
  = if k =? n then Qutip.c1 else Qutip.c0.
Proof.
  intros Hn. rewrite nth_map_seq. simpl.
  destruct (Nat.ltb_spec k N) as [Hk|Hk]; [reflexivity|].
  destruct (Nat.eqb_spec k n); [lia | reflexivity].
Qed.

(** C10.  A [Ghost] built without a [last_move] argument has
    [last_move = Vector2(-1, 0)]; this holds for the [QGhost] itself and
    for the one visible part its constructor adds. *)
Theorem default_direction_is_left (pos : Vector2) :
  last_move (Ghost_init pos None) = mkVector2 (-1) 0
  ∧ ∀ (QState : Type) (ket : list nat → nat → option QState) (M : nat)
      (spl : list GhostSplitter) (rg : list Ghost) (g : QGhost QState),
      QGhost_init ket M pos spl rg = Some g →
      last_move (self_ghost g) = mkVector2 (-1) 0
      ∧ visible_parts g = [mkGhost pos (mkVector2 (-1) 0)].
Proof.
  split; [reflexivity|].
  intros QState ket M spl rg g H. unfold QGhost_init in H.
  destruct (ket [1] M) as [q|]; [|discriminate].
  injection H as <-. split; reflexivity.
Qed.

Lemma default_direction_is_left_witness :
  ∃ g, QGhost_init Qutip.ket 4 origin [] [] = Some g
       ∧ visible_parts g = [mkGhost origin (mkVector2 (-1) 0)].
Proof.
  eexists. split; [reflexivity|].
  exact (proj2 (proj2 (default_direction_is_left origin) _ Qutip.ket 4 [] [] _
                      eq_refl)).
Defined.

Lemma norm_sq_basis (n N a : nat) :
  (fold_right Qplus 0
     (map Qutip.cnorm_sq
          (map (λ k, if k =? n then Qutip.c1 else Qutip.c0) (seq a N)))
   == if (a <=? n) && (n <? a + N) then 1 else 0)%Q.
Proof.
  revert a. induction N as [|N IH]; intros a.
  - simpl. destruct (Nat.leb_spec a n), (Nat.ltb_spec n (a + 0));
      simpl; try reflexivity; lia.
  - cbn [seq map fold_right]. rewrite IH.
    destruct (Nat.eqb_spec a n) as [->|Hne].
    + destruct (Nat.leb_spec (S n) n); [lia|].
      destruct (Nat.leb_spec n n); [|lia].
      destruct (Nat.ltb_spec n (n + S N)); [|lia].
      reflexivity.
    + destruct (Nat.leb_spec (S a) n), (Nat.leb_spec a n),
        (Nat.ltb_spec n (S a + N)), (Nat.ltb_spec n (a + S N));
        simpl; try reflexivity; lia.
Qed.

(** C8.  For [MAX_GHOSTS_PER_STATE >= 2] the constructor succeeds and
    its state is the pure state occupying slot 0: it has one slot, for the
    one visible part; it is normalised; and the part of it with slot 0
    empty, whose norm the attack reads as "part 0 is not here", is zero.
    The one mode is in its number state of level 1. *)
Theorem initial_state_occupies_slot_0 (M : nat) (pos : Vector2)
    (spl : list GhostSplitter) (rg : list Ghost) :
  2 ≤ M →
  ∃ g, QGhost_init Qutip.ket M pos spl rg = Some g
       ∧ length (visible_parts g) = 1
       ∧ occupies_slot M (length (visible_parts g)) (quantum_state g) 0
       ∧ number_state (quantum_state g) 1.
Proof.
  intros HM. unfold QGhost_init. simpl. unfold Qutip.basis.
  destruct (Nat.ltb_spec 1 M) as [H1|H1]; [|lia].
  eexists. split; [reflexivity|]. simpl. split; [reflexivity|]. split.
  - split; [reflexivity|]. split; [lia|]. split.
    + unfold Qutip.norm_sq. simpl. rewrite norm_sq_basis.
      destruct (Nat.ltb_spec 1 (0 + M)); [reflexivity | lia].
    + intros k Hk. assert (k = 0) as -> by lia.
      unfold Qutip.not_here. simpl.
      destruct (decide ([M] = [M] ∧ 0 < 1)) as [_|Hn];
        [|exfalso; apply Hn; split; [reflexivity | lia]].
      eexists. split; [reflexivity|].
      destruct M as [|M]; [lia|]. reflexivity.
  - intros i. unfold Qutip.amplitude. simpl. apply basis_amplitude. exact H1.
Qed.

Lemma initial_state_occupies_slot_0_witness :
  ∃ g, QGhost_init Qutip.ket 4 origin [] [] = Some g
       ∧ length (visible_parts g) = 1
       ∧ occupies_slot 4 (length (visible_parts g)) (quantum_state g) 0
       ∧ number_state (quantum_state g) 1.
Proof. apply (initial_state_occupies_slot_0 4 origin [] []). lia. Defined.

(** With two slots: [ket([1, 0], 3)] occupies slot 0 and not slot 1. *)
Example two_slots_first_occupied :
  ∃ q, Qutip.ket [1; 0] 3 = Some q
       ∧ occupies_slot 3 2 q 0 ∧ ¬ occupies_slot 3 2 q 1.
Proof.
  eexists. split; [reflexivity|]. split.
  - split; [reflexivity|]. split; [lia|]. split; [reflexivity|].
    intros k Hk. destruct k as [|[|k]]; [| |lia];
      eexists; (split; [reflexivity|]); reflexivity.
  - intros (_ & _ & _ & H). destruct (H 0 ltac:(lia)) as (p & Hp & Hn).
    vm_compute in Hp. injection Hp as <-. vm_compute in Hn. discriminate Hn.
Qed.

(** The constructor raises when the setting is below 2. *)
Lemma initial_state_needs_two_levels (M : nat) pos spl rg :
  M < 2 → QGhost_init Qutip.ket M pos spl rg = None.
Proof.
  intros HM. unfold QGhost_init. simpl. unfold Qutip.basis.
  destruct (Nat.ltb_spec 1 M); [lia | reflexivity].
Qed.

(** ** The coincidence test modelled from the spec is symmetric *)

Lemma spec_coincidence_symmetric (g1 g2 : Ghost) (ty : string) :
  spec_coincidence g1 g2 ty = spec_coincidence g2 g1 ty.
Proof.
  unfold spec_coincidence, complementary.
  destruct (String.eqb ty "45");
    rewrite orb_comm;
    rewrite (andb_comm (Vector2_eqb (last_move g1) _));
    rewrite (andb_comm (Vector2_eqb (last_move g1) _));
    reflexivity.
Qed.

(** ** Movement *)

(** [calculate_move_vector] returns the zero vector or one of the four
    unit steps of [DIR_DICT]. *)
Lemma calculate_move_vector_range (speed : Q) (r : RNG) :
  fst (calculate_move_vector speed r)
  ∈ [mkVector2 0 0; mkVector2 (-1) 0; mkVector2 1 0;
     mkVector2 0 (-1); mkVector2 0 1].
Proof.
  unfold calculate_move_vector, random, choice.
  destruct (Qlt_bool _ _); [simpl; set_solver|].
  change (length (map fst DIR_DICT)) with 4.
  pose proof (Nat.mod_upper_bound (picks (advance r) (cursor (advance r))) 4
                ltac:(lia)) as H.
  destruct (picks (advance r) (cursor (advance r)) mod 4)
    as [|[|[|[|n]]]]; [cbn; set_solver ..|lia].
Qed.

(** C9, on the code.  The tape makes [calculate_move_vector] return the
    step up, [(0, 1)]; [Ghost.update] nevertheless moves the ghost by its
    [last_move], [(-1, 0)].  Whatever the tape, the vector handed to
    [Unit.update] is [last_move], and [last_move] is left as it was. *)
Theorem Ghost_update_discards_random_move :
  let g := Ghost_init origin None in
  let r := constant_tape (3 # 4) 3 in
  fst (calculate_move_vector (1 # 2) r) = mkVector2 0 1
  ∧ fst (Ghost_update_move (1 # 2) g r) = mkVector2 (-1) 0
  ∧ (∀ (speed : Q) (g : Ghost) (r : RNG),
       fst (Ghost_update_move speed g r) = last_move g)
  ∧ (∀ (step : Vector2 → Vector2 → Vector2) (speed : Q) (g : Ghost) (r : RNG),
       last_move (fst (Ghost_update step speed g r)) = last_move g).
Proof.
  split; [reflexivity|]. split; [reflexivity|]. split.
  - intros speed g r. unfold Ghost_update_move.
    destruct (calculate_move_vector speed r). reflexivity.
  - intros step speed g r. unfold Ghost_update, Ghost_update_move.
    destruct (calculate_move_vector speed r). reflexivity.
Qed.

(** ** The engine at concrete inputs *)

Lemma update_capacity_guard_witness :
  update TBeam spec_coincidence spec_in_attack_radius certain_presence
         2 1 (1 # 2)
         (ghost_with 2 [part_left; part_up; part_right]) player_at_origin
         (constant_tape 0 0)
  = (ghost_with 2 [part_left; part_up; part_right], player_at_origin,
     constant_tape 0 0).
Proof.
  apply (update_capacity_guard TBeam spec_coincidence spec_in_attack_radius
           certain_presence 2 1 (1 # 2)).
  simpl. lia.
Defined.

(** With both parts in range and certainly present the aggregate is 2:
    the sum is not clamped to 1. *)
Example aggregate_exceeds_one :
  aggregate spec_in_attack_radius certain_presence 1
            (ghost_with 4 [part_up; part_right]) player_at_origin
  = 2%Q.
Proof. reflexivity. Qed.

(** One part in range and certainly present, both draws 0: the player
    loses exactly 1 health and the attack sound is played once. *)
Example attack_trigger :
  let res := attack spec_in_attack_radius certain_presence 1 (1 # 2)
                    (ghost_with 4 [part_left]) player_at_origin
                    (constant_tape 0 0) in
  health res.1.2 = 2%Z ∧ attack_sounds res.1.1 = 1 ∧ cursor res.2 = 2.
Proof. repeat split. Qed.

(** C6, as stated.  With capacity 2, a ghost has two parts, the second on
    a splitter tile; it is within the capacity, and one [update] leaves it
    with three parts. *)
Lemma update_grows_past_capacity :
  let g := ghost_with 2 [part_away; part_left] in
  length (visible_parts g) ≤ 2
  ∧ ¬ length (visible_parts
                (update TBeam spec_coincidence spec_in_attack_radius
                        certain_presence 2 1 (1 # 2)
                        g player_at_origin (constant_tape (3 # 4) 0)).1.1)
      ≤ 2.
Proof.
  split; [simpl; lia|].
  vm_compute. lia.
Qed.

Lemma update_growth_bound_witness :
  let g := ghost_with 2 [part_left; part_up; part_right] in
  visible_parts
    (update TBeam spec_coincidence spec_in_attack_radius certain_presence
            2 1 (1 # 2) g player_at_origin (constant_tape 0 0)).1.1
  = visible_parts g.
Proof.
  apply (update_growth_bound TBeam spec_coincidence spec_in_attack_radius
           certain_presence 2 1 (1 # 2)).
  simpl. lia.
Defined.

(** C2, as stated.  Two parts stand on a diagonal splitter, one moving up
    and one moving right; the coincidence test succeeds for them, both
    indices are marked and [beam_splitter] is applied, and after the pass
    both parts are still in [visible_parts]. *)
Lemma merged_parts_are_not_removed :
  let g := ghost_with 4 [part_up; part_right] in
  let st' := interact_with_splitter_seen TBeam spec_coincidence g in
  spec_coincidence part_up part_right "45" = true
  ∧ st'.2 = {[0; 1]}
  ∧ quantum_state st'.1 = TBeam (TKet [1] 4) 0 (Some 1)
  ∧ ¬ ((part_up ∉ visible_parts st'.1) ∧ (part_right ∉ visible_parts st'.1))
  ∧ visible_parts st'.1 = [part_up; part_right].
Proof.
  split; [reflexivity|]. split; [vm_compute; reflexivity|].
  split; [reflexivity|]. split; [|reflexivity].
  intros [H _]. apply H. left.
Qed.

Lemma merge_keeps_both_parts_witness :
  let st' := process_part TBeam spec_coincidence sp45
               (ghost_with 4 [part_up; part_right], ∅) (0, part_up) in
  visible_parts st'.1 = [part_up; part_right]
  ∧ 0 ∈ st'.2 ∧ 1 ∈ st'.2.
Proof.
  pose proof (merge_keeps_both_parts TBeam spec_coincidence sp45
                (ghost_with 4 [part_up; part_right]) ∅ 0 1 part_up part_right
                (not_elem_of_empty 0) eq_refl eq_refl eq_refl)
    as (Hp & _ & _ & Hi & Hj & _).
  split; [exact Hp|]. split; [exact Hi | exact Hj].
Defined.

(** On [away; up; right] the parts 1 and 2 coincide: both indices are
    marked, and the call made is [beam_splitter(state, 1, 1)], with the
    offset of part 2 in [visible_parts[1:]] as the second mode. *)
Example merge_passes_the_offset :
  let st' := interact_with_splitter_seen TBeam spec_coincidence
               (ghost_with 4 [part_away; part_up; part_right]) in
  quantum_state st'.1 = TBeam (TKet [1] 4) 1 (Some 1)
  ∧ st'.2 = {[1; 2]}.
Proof. split; [reflexivity | vm_compute; reflexivity]. Qed.

Lemma split_spawns_reflected_part_witness :
  let g := ghost_with 4 [part_up] in
  visible_parts (interact_with_splitter TBeam spec_coincidence g)
  = [part_up; mkGhost origin (mkVector2 (-1) 0)]
  ∧ quantum_state (interact_with_splitter TBeam spec_coincidence g)
    = TBeam (TKet [1] 4) 0 None.
Proof.
  exact (proj2 (split_spawns_reflected_part TBeam spec_coincidence sp45
                  (ghost_with 4 [part_up]) ∅ 0 part_up
                  eq_refl (not_elem_of_empty 0) eq_refl eq_refl)
               eq_refl eq_refl eq_refl eq_refl eq_refl).
Defined.

(** C7, as stated.  Three parts stand on a diagonal splitter, moving up,
    up and right.  Scanning part 0 marks the indices 0 and 2.  Part 1 is
    scanned next: index 2, though marked, is among its candidates (at
    offset 1), the test is run against it and succeeds, and
    [beam_splitter] is applied once more. *)
Lemma seen_part_is_still_a_candidate :
  let g := ghost_with 4 [part_up; part_up; part_right] in
  let st1 := process_part TBeam spec_coincidence sp45 (g, ∅) (0, part_up) in
  let st2 := process_part TBeam spec_coincidence sp45 st1 (1, part_up) in
  st1.2 = {[0; 2]}
  ∧ ¬ (∀ j other, (j, other) ∈ candidates 1 st1.1 → 1 + j ∉ st1.2)
  ∧ quantum_state st1.1 = TBeam (TKet [1] 4) 0 (Some 2)
  ∧ quantum_state st2.1 = TBeam (TBeam (TKet [1] 4) 0 (Some 2)) 1 (Some 1)
  ∧ interact_with_splitter_seen TBeam spec_coincidence g = st2.
Proof.
  split; [vm_compute; reflexivity|]. split.
  - intros H. apply (H 1 part_right).
    + right. left.
    + vm_compute. reflexivity.
  - split; [reflexivity|]. split; reflexivity.
Qed.

Lemma candidates_are_all_later_parts_witness :
  (1, part_right) ∈ candidates 1 (ghost_with 4 [part_up; part_up; part_right]).
Proof.
  exact (proj2 (proj1 (candidates_are_all_later_parts
                         TBeam spec_coincidence 1 part_up "45"
                         (ghost_with 4 [part_up; part_up; part_right]) ∅)
                      1 part_right)
               eq_refl).
Defined.


(** ** Further properties at the level of the file *)

(** X1.  [calculate_move_vector] stands still exactly when its first
    draw is below [GHOST_SPEED], and then uses one draw; otherwise it uses
    a second draw and returns one of the four unit steps of [DIR_DICT],
    never a diagonal or a longer step. *)
Theorem calculate_move_vector_outcomes (speed : Q) (r : RNG) :
  ((floats r (cursor r) < speed)%Q →
   calculate_move_vector speed r = (mkVector2 0 0, advance r))
  ∧ ((speed <= floats r (cursor r))%Q →
     (calculate_move_vector speed r).1
     ∈ [mkVector2 (-1) 0; mkVector2 1 0; mkVector2 0 (-1); mkVector2 0 1]
     ∧ (calculate_move_vector speed r).2 = advance (advance r)).
Proof.
  unfold calculate_move_vector, random, choice, Qlt_bool. split; intros H.
  - destruct (Qle_bool speed (floats r (cursor r))) eqn:E; [|reflexivity].
    apply Qle_bool_iff in E. apply Qle_not_lt in E. contradiction.
  - apply Qle_bool_iff in H. rewrite H. cbn [negb].
    change (length (map fst DIR_DICT)) with 4.
    pose proof (Nat.mod_upper_bound (picks (advance r) (cursor (advance r)))
                  4 ltac:(lia)) as B.
    destruct (picks (advance r) (cursor (advance r)) mod 4)
      as [|[|[|[|n]]]]; [cbn; split; [|reflexivity] ..|lia].
    + left.
    + right; left.
    + right; right; left.
    + right; right; right; left.
Qed.

Lemma calculate_move_vector_outcomes_witness :
  calculate_move_vector (1 # 2) (constant_tape (1 # 4) 3)
  = (mkVector2 0 0, advance (constant_tape (1 # 4) 3))
  ∧ (calculate_move_vector (1 # 2) (constant_tape (3 # 4) 3)).2
    = advance (advance (constant_tape (3 # 4) 3)).
Proof.
  split.
  - apply (proj1 (calculate_move_vector_outcomes (1 # 2)
                    (constant_tape (1 # 4) 3))).
    reflexivity.
  - apply (proj2 (calculate_move_vector_outcomes (1 # 2)
                    (constant_tape (3 # 4) 3))).
    discriminate.
Defined.



(** X11.  [QGhost.__init__] raises when [MAX_GHOSTS_PER_STATE] is below
    2; otherwise the new ghost has exactly one visible part, at the given
    position, appended to the render group it was given, with the
    splitters it was given. *)
Theorem QGhost_init_outcomes (M : nat) (pos : Vector2)
    (spl : list GhostSplitter) (rg : list Ghost) :
  (M < 2 → QGhost_init Qutip.ket M pos spl rg = None)
  ∧ (2 ≤ M →
     ∃ g, QGhost_init Qutip.ket M pos spl rg = Some g
          ∧ visible_parts g = [Ghost_init pos None]
          ∧ render_group g = rg ++ [Ghost_init pos None]
          ∧ splitters g = spl
          ∧ attack_sounds g = 0).
Proof.
  unfold QGhost_init. simpl. unfold Qutip.basis. split; intros H.
  - destruct (Nat.ltb_spec 1 M); [lia | reflexivity].
  - destruct (Nat.ltb_spec 1 M); [|lia].
    eexists. split; [reflexivity|]. repeat split.
Qed.

Lemma QGhost_init_outcomes_witness :
  QGhost_init Qutip.ket 1 origin [sp45] [] = None
  ∧ ∃ g, QGhost_init Qutip.ket 2 origin [sp45] [] = Some g
         ∧ visible_parts g = [Ghost_init origin None]
         ∧ render_group g = [] ++ [Ghost_init origin None]
         ∧ splitters g = [sp45]
         ∧ attack_sounds g = 0.
Proof.
  split.
  - apply (proj1 (QGhost_init_outcomes 1 origin [sp45] [])). lia.
  - apply (proj2 (QGhost_init_outcomes 2 origin [sp45] [])). lia.
Defined.

(** *** The tolerance of the splitter test *)

Lemma isclose_ints (a b : Z) :
  isclose (inject_Z a) (inject_Z b) (1 # 100) = true
  ↔ (100000000 * (100 * Z.abs (a - b)) ≤ 100 + 100000000 * Z.abs b)%Z.
Proof.
  unfold isclose. rewrite Qle_bool_iff.
  assert (E : (inject_Z a - inject_Z b == inject_Z (a - b))%Q)
    by (unfold Z.sub; rewrite inject_Z_plus, inject_Z_opp; reflexivity).
  rewrite E.
  change (Qabs (inject_Z (a - b))) with (inject_Z (Z.abs (a - b))).
  change (Qabs (inject_Z b)) with (inject_Z (Z.abs b)).
  unfold Qle, atol_default, Qplus, Qmult, inject_Z. simpl. lia.
Qed.

(** X12.  On whole cells with coordinates below 100 in absolute value,
    the test [np.allclose(splitter.position, ghost.position, 1e-2)] is
    true exactly when the ghost stands on the splitter's cell. *)
Theorem allclose_on_small_cells (a b : Z * Z) :
  (Z.abs b.1 ≤ 99)%Z → (Z.abs b.2 ≤ 99)%Z →
  allclose (Vector2_of_ints a) (Vector2_of_ints b) (1 # 100) = true ↔ a = b.
Proof.
  intros H1 H2. destruct a as [a1 a2], b as [b1 b2]. simpl in H1, H2.
  unfold allclose, Vector2_of_ints. simpl.
  rewrite andb_true_iff, !isclose_ints. split.
  - intros [A B]. f_equal; lia.
  - intros [= -> ->]. lia.
Qed.

Lemma allclose_on_small_cells_witness :
  allclose (Vector2_of_ints (3, 4)%Z) (Vector2_of_ints (3, 4)%Z) (1 # 100)
  = true.
Proof.
  apply (allclose_on_small_cells (3, 4)%Z (3, 4)%Z); simpl; [lia | lia |].
  reflexivity.
Defined.

(** X13.  The tolerance is relative to the ghost's coordinate: a ghost
    whose x coordinate is a whole cell of 100 or more also passes the test
    for a splitter one cell to its left or to its right. *)
Theorem allclose_is_relative (b y : Z) :
  (100 ≤ b)%Z →
  allclose (Vector2_of_ints (b - 1, y)%Z) (Vector2_of_ints (b, y)) (1 # 100)
  = true
  ∧ allclose (Vector2_of_ints (b + 1, y)%Z) (Vector2_of_ints (b, y)) (1 # 100)
    = true.
Proof.
  intros H. unfold allclose, Vector2_of_ints. simpl.
  rewrite !andb_true_iff, !isclose_ints. lia.
Qed.

Lemma allclose_is_relative_witness :
  allclose (Vector2_of_ints (99, 0)%Z) (Vector2_of_ints (100, 0)%Z) (1 # 100)
  = true.
Proof. apply (allclose_is_relative 100 0). lia. Defined.

(** *** The properties of the pass at concrete inputs *)

Lemma pass_is_identity_off_the_splitters_witness :
  interact_with_splitter_seen TBeam spec_coincidence (ghost_with 4 [part_away])
  = (ghost_with 4 [part_away], ∅).
Proof.
  apply pass_is_identity_off_the_splitters.
  intros sp part Hs Hp.
  apply list_elem_of_singleton in Hs, Hp. subst. reflexivity.
Defined.

Lemma seen_indices_are_valid_witness :
  1 < length (visible_parts
                (interact_with_splitter TBeam spec_coincidence
                   (ghost_with 4 [part_up; part_right]))).
Proof.
  apply seen_indices_are_valid. vm_compute. reflexivity.
Defined.

Lemma parts_move_along_an_axis_witness :
  let g := ghost_with 2 [part_away; part_left] in
  let tape := constant_tape (3 # 4) 0 in
  Forall cardinal
    (visible_parts (mkQGhost (Ghost_init origin None) (TKet [1] 2)
                             ([] ++ [Ghost_init origin None]) [sp45]
                             ([] ++ [Ghost_init origin None]) 0))
  ∧ Forall cardinal
      (visible_parts
         (update TBeam spec_coincidence spec_in_attack_radius
                 certain_presence 2 1 (1 # 2) g player_at_origin tape).1.1)
  ∧ cardinal (Ghost_update (λ p _, p) (1 # 2) part_left tape).1.
Proof.
  assert (L : cardinal part_left)
    by (exists (-1, 0)%Z; split; [left | split; reflexivity]).
  assert (A : cardinal part_away)
    by (exists (-1, 0)%Z; split; [left | split; reflexivity]).
  pose proof (parts_move_along_an_axis
                (λ ns d, Some (TKet ns d)) TBeam spec_coincidence
                spec_in_attack_radius certain_presence (λ p _, p)
                2 1 (1 # 2) (1 # 2)
                (ghost_with 2 [part_away; part_left]) player_at_origin
                (constant_tape (3 # 4) 0)) as (H1 & H2 & H3).
  split; [|split].
  - exact (H1 origin [sp45] [] _ eq_refl).
  - apply H2. repeat constructor; assumption.
  - apply H3. exact L.
Defined.

Lemma reflected_move_perpendicular_witness :
  (dot dir_up (reflected_move "45" dir_up) == 0)%Q.
Proof.
  apply (reflected_move_perpendicular "45" dir_up). reflexivity.
Defined.

Lemma update_state_invariant_witness :
  term_base
    (quantum_state
       (update TBeam spec_coincidence spec_in_attack_radius certain_presence
               2 1 (1 # 2) (ghost_with 2 [part_away; part_left])
               player_at_origin (constant_tape (3 # 4) 0)).1.1)
  = TKet [1] 2.
Proof.
  apply (update_state_invariant TBeam spec_coincidence spec_in_attack_radius
           certain_presence 2 1 (1 # 2)
           (λ q, term_base q = TKet [1] 2)).
  - intros q i j H. exact H.
  - reflexivity.
Defined.

Lemma parts_added_match_new_modes_witness :
  let g := ghost_with 2 [part_away; part_left] in
  let g' := (update TBeam spec_coincidence spec_in_attack_radius
                    certain_presence 2 1 (1 # 2) g player_at_origin
                    (constant_tape (3 # 4) 0)).1.1 in
  splits (quantum_state g') + length (visible_parts g)
  = splits (quantum_state g) + length (visible_parts g').
Proof.
  apply (parts_added_match_new_modes TBeam spec_coincidence
           spec_in_attack_radius certain_presence 2 1 (1 # 2) splits).
  - intros q i. reflexivity.
  - intros q i j. reflexivity.
Defined.

Lemma aggregate_bounds_witness :
  (0 <= aggregate spec_in_attack_radius certain_presence 1
                  (ghost_with 4 [part_up; part_right]) player_at_origin
   <= inject_Z 2)%Q.
Proof.
  apply (aggregate_bounds spec_in_attack_radius certain_presence 1
           (ghost_with 4 [part_up; part_right]) player_at_origin).
  intros i. split; discriminate.
Defined.

Lemma attack_with_nobody_in_range_witness :
  aggregate spec_in_attack_radius certain_presence 1
            (ghost_with 4 [part_away]) player_at_origin
  = 0%Q.
Proof.
  apply (attack_with_nobody_in_range spec_in_attack_radius certain_presence
           1 (1 # 2) (ghost_with 4 [part_away]) player_at_origin
           (constant_tape 0 0)).
  intros part Hp. apply list_elem_of_singleton in Hp. subst. reflexivity.
Defined.

Lemma merged_parts_are_skipped_witness :
  let st' := run_turns TBeam spec_coincidence
               (process_part TBeam spec_coincidence sp45
                  (ghost_with 4 [part_up; part_right; part_left], ∅)
                  (0, part_up))
               [(sp45, (2, part_left))] in
  length (visible_parts st'.1) = 4
  ∧ process_part TBeam spec_coincidence sp45 st' (1, part_right) = st'.
Proof.
  split; [reflexivity|].
  exact (proj1 (proj2 (proj2
           (merged_parts_are_skipped TBeam spec_coincidence sp45 sp45
              (ghost_with 4 [part_up; part_right; part_left]) ∅ 0 1
              part_up part_right part_right [(sp45, (2, part_left))]
              (not_elem_of_empty 0) eq_refl eq_refl eq_refl)))).
Defined.

Lemma pure_split_pass_witness :
  visible_parts
    (interact_with_splitter_seen TBeam (λ _ _ _, false)
       (ghost_with 4 [part_up; part_away; part_right])).1
  = [part_up; part_away; part_right;
     mkGhost origin (mkVector2 (-1) 0); mkGhost origin (mkVector2 0 (-1))].
Proof.
  rewrite (pure_split_pass TBeam (λ _ _ _, false) sp45
             (ghost_with 4 [part_up; part_away; part_right])
             (λ _ _ _, eq_refl) eq_refl).
  reflexivity.
Defined.
